(** * Options wheel: the decision engine of [core/execution.py]

    A shallow embedding of [sell_puts], [sell_calls] and [manage_open_puts].

    Modelling conventions.
    - A Python float (price, strike, score, buying power) is the rational
      [Q] it denotes; NaN and infinities are not modelled. The comparisons
      of the code are exact on these values. The subtraction, product and
      quotient of the buying-power and P&L computations round, so they are
      operations of a class [FloatArith] over which the embedding is
      generic: what is proved holds whatever they compute. Two instances are
      given, the exact operations and the IEEE binary64 ones. The mean of
      bid and ask of line 152 is the exact one.
    - The brokerage client is an opaque capability: each of its methods is a
      transformer of an abstract broker state [B] that either returns a value
      or raises an exception of the abstract type [E].
    - The code runs in a state-and-exception monad over a [World]: the broker
      state, the trace of calls made on collaborators, the records emitted on
      the module logger and the records handed to the strategy logger. *)

From Stdlib Require Import QArith Qabs ZArith List String Lia Lqa.
From Stdlib Require Floats.PrimFloat Floats.SpecFloat Floats.FloatOps.
From Stdlib Require Numbers.Cyclic.Int63.Uint63.
From stdpp Require Import gmap strings list.

Local Open Scope string_scope.
Local Open Scope Q_scope.
Local Open Scope list_scope.

(** ** Data model *)

Inductive AssetClass := US_EQUITY | US_OPTION | CRYPTO.

Definition AssetClass_eqb (a b : AssetClass) : bool :=
  match a, b with
  | US_EQUITY, US_EQUITY | US_OPTION, US_OPTION | CRYPTO, CRYPTO => true
  | _, _ => false
  end.

Inductive OrderSide := BUY | SELL.
Inductive OrderType := MARKET | LIMIT.
Inductive TimeInForce := DAY | GTC.

(** An open position as the brokerage reports it; [qty] and
    [avg_entry_price] are the numbers that [int(...)] and [float(...)]
    read from the position. *)
Module Position.
Record t := mk {
  symbol : string;
  qty : Z;
  avg_entry_price : Q;
  asset_class : AssetClass
}.
End Position.

Module Quote.
Record t := mk {
  bid_price : option Q;
  ask_price : option Q
}.
End Quote.

Module Trade.
Record t := mk { price : Q }.
End Trade.

(** An option snapshot: [None] stands for an attribute that is missing or
    holds Python's [None]. *)
Module Snapshot.
Record t := mk {
  latest_quote : option Quote.t;
  latest_trade : option Trade.t
}.
End Snapshot.

(** The entry of [put_details] built at lines 97-103. *)
Module PutDetail.
Record t := mk {
  underlying : string;
  strike : Q;
  qty : Z;
  avg_entry_price : Q;
  position : Position.t
}.
End PutDetail.

Inductive Reason := profit_target | loss_limit.

Module MarketOrderRequest.
Record t := mk {
  symbol : string;
  qty : Z;
  side : OrderSide;
  type : OrderType;
  time_in_force : TimeInForce
}.
End MarketOrderRequest.

Module OrderResponse.
Record t := mk { id : string }.
End OrderResponse.

(** The dictionary appended to [closed_positions] at lines 215-223. *)
Module ClosedPosition.
Record t := mk {
  symbol : string;
  underlying : string;
  strike : Q;
  reason : Reason;
  pnl : Q;
  premium_collected : Q;
  order_id : string
}.
End ClosedPosition.

(** The contract description returned by [client.get_options_contracts];
    this module reads only its [symbol]. *)
Module OptionContract.
Record t := mk {
  symbol : string;
  underlying_symbol : string;
  strike_price : Q
}.
End OptionContract.

(** Modelled from the spec: [models.contract.Contract] is not among the
    sources; the fields are those of the specification's data model. This
    module reads [symbol] and [strike] and passes [to_dict ()] to the
    strategy logger, which is modelled by handing over the record itself. *)
Module Contract.
Record t := mk {
  symbol : string;
  underlying : string;
  strike : Q;
  option_type : string;
  delta : option Q;
  oi : option Z;
  bid_price : Q;
  ask_price : Q;
  last_price : Q
}.
End Contract.

(** ** Python truthiness and dictionaries *)

(** [bool(x)] of an optional float: [None] and [0] are falsy. *)
Definition truthy (x : option Q) : bool :=
  match x with
  | Some v => negb (Qeq_bool v 0)
  | None => false
  end.

(** [x or 0] for an optional float. *)
Definition or_zero (x : option Q) : Q :=
  match x with
  | Some v => if Qeq_bool v 0 then 0 else v
  | None => 0
  end.

(** [d[k] = v] on an insertion-ordered dictionary: an existing key keeps its
    place and takes the new value, a new key goes last. *)
Fixpoint dict_set {V} (d : list (string * V)) (k : string) (v : V)
  : list (string * V) :=
  match d with
  | [] => [(k, v)]
  | (k', v') :: d' =>
      if String.eqb k' k then (k, v) :: d' else (k', v') :: dict_set d' k v
  end.

(** ** Floating-point arithmetic *)

(** The rounding operations of the code: [fsub x y] is what [x - y]
    computes, [fmul x y] what [x * y] computes and [fdiv x y] what [x / y]
    computes on floats. *)
Class FloatArith := {
  fsub : Q -> Q -> Q;
  fmul : Q -> Q -> Q;
  fdiv : Q -> Q -> Q
}.

(** The operations without rounding. *)
Definition exact_arithmetic : FloatArith :=
  {| fsub := Qminus; fmul := Qmult; fdiv := Qdiv |}.

(** The IEEE binary64 operations. An integer below 2^63 as a double. *)
Definition Z2float (z : Z) : PrimFloat.float :=
  match z with
  | Z0 => PrimFloat.zero
  | Zpos _ =>
      if (z <? 2 ^ 63)%Z then PrimFloat.of_uint63 (Uint63.of_Z z)
      else PrimFloat.infinity
  | Zneg n =>
      if (Zpos n <? 2 ^ 63)%Z
      then PrimFloat.opp (PrimFloat.of_uint63 (Uint63.of_Z (Zpos n)))
      else PrimFloat.neg_infinity
  end.

(** The double nearest to a rational whose numerator and denominator are
    below 2^53: both are then doubles, and the division rounds once. *)
Definition Q2float (q : Q) : PrimFloat.float :=
  PrimFloat.div (Z2float (Qnum q)) (Z2float (Zpos (Qden q))).

(** The rational a finite double denotes; infinities and NaN, which are not
    modelled, read as 0. *)
Definition float2Q (f : PrimFloat.float) : Q :=
  match FloatOps.Prim2SF f with
  | SpecFloat.S754_finite s m e =>
      let n := if s then Zneg m else Zpos m in
      Qred (if (0 <=? e)%Z then inject_Z (n * 2 ^ e)
            else Qmake n (Z.to_pos (2 ^ (- e))))
  | _ => 0
  end.

(** The value of a decimal literal: that of the double nearest to it. *)
Definition double (q : Q) : Q := float2Q (Q2float q).

Definition double_arithmetic : FloatArith :=
  {| fsub := fun x y => float2Q (PrimFloat.sub (Q2float x) (Q2float y));
     fmul := fun x y => float2Q (PrimFloat.mul (Q2float x) (Q2float y));
     fdiv := fun x y => float2Q (PrimFloat.div (Q2float x) (Q2float y)) |}.

(** ** Log records *)

Inductive Level := INFO | WARNING | ERROR.

Section Execution.

(** [B]: the state of the brokerage; [E]: the exceptions collaborators
    raise; [arith]: the float operations. *)
Context {B E : Type}.
Context {arith : FloatArith}.

(** One constructor per [logger] call of the module, with the values the
    message is formatted from. *)
Inductive Msg :=
| NoOpenPutPositions
| ManagingOpenPuts (n : nat)
| CouldNotParse (symbol : string) (e : string)
| NoValidPutPositions
| FailedStockPrices (e : E)
| FailedOptionSnapshots (e : E)
| NoStockPriceData (underlying : string)
| NoOptionPriceData (option_symbol : string)
| NoPriceDataAvailable (option_symbol : string)
| PositionStatus (option_symbol : string)
    (stock strike premium current pnl pnl_pct : Q)
| ProfitTargetReached (option_symbol : string) (pnl_pct target_pct pnl : Q)
| LossLimitReached (option_symbol : string) (pnl_pct target_pct pnl : Q)
| BuyingBack (option_symbol : string) (action_desc : string) (pnl : Q)
| SubmittedCloseOrder (option_symbol : string) (order_id : string)
| FailedToClose (option_symbol : string) (e : E)
| ClosedCount (closed total : nat)
| SearchingPuts
| NoSymbolsWithBuyingPower
| ScoringPuts
| SellingPut (symbol : string)
| NoPutOptionsFound
| NotEnoughShares (symbol : string) (stock_qty : Z)
| SearchingCalls (symbol : string)
| SellingCall (symbol : string)
| NoViableCalls (symbol : string).

(** What the strategy logger is handed, one constructor per method. *)
Inductive StratRecord :=
| set_filtered_symbols (symbols : list string)
| log_put_options (options : list Contract.t)
| log_sold_puts (options : list Contract.t)
| log_call_options (options : list Contract.t)
| log_sold_calls (option : Contract.t)
| log_closed_puts (closed : list ClosedPosition.t).

(** The [strat_logger] argument is a handle on the strategy logger, or
    [None]. *)
Inductive StrategyLogger := StratLogger.

(** Calls made on collaborators that hold the client. *)
Inductive Call :=
| call_get_positions
| call_get_stock_latest_trade (symbols : gset string)
| call_get_option_snapshot (symbols : list string)
| call_get_options_contracts (symbols : list string) (side : string)
| call_market_sell (symbol : string)
| call_submit_order (order : MarketOrderRequest.t)
| call_filter_underlying (symbols : list string) (buying_power : Q)
| call_from_contract (option : OptionContract.t).

(** Exceptions that leave a function of the module. *)
Inductive exn :=
| InsufficientShares (symbol : string) (stock_qty : Z)
    (* the ValueError of sell_calls, line 52 *)
| AttributeError (attr : string)
    (* a method looked up on None *)
| ArgmaxOfEmpty
    (* np.argmax on an empty sequence *)
| IndexError
| Raised (e : E).
    (* an exception of a collaborator, not caught here *)

(** The world; [calls], [log] and [strat] hold the newest record first. *)
Record World := mkWorld {
  broker : B;
  calls : list Call;
  log : list (Level * Msg);
  strat : list StratRecord
}.

Definition M (A : Type) : Type := World -> World * (exn + A).

Definition ret {A} (a : A) : M A := fun w => (w, inr a).

Definition bind {A C} (m : M A) (k : A -> M C) : M C :=
  fun w => match m w with
           | (w', inr a) => k a w'
           | (w', inl e) => (w', inl e)
           end.

Definition raise {A} (e : exn) : M A := fun w => (w, inl e).

Notation "'let!' x := m 'in' k" := (bind m (fun x => k))
  (at level 10, x name, m at level 100, k at level 200, only parsing).
Notation "'do!' m 'in' k" := (bind m (fun _ => k))
  (at level 10, m at level 100, k at level 200, only parsing).

Definition logger (lvl : Level) (m : Msg) : M unit :=
  fun w => (mkWorld (broker w) (calls w) ((lvl, m) :: log w) (strat w), inr tt).

Definition logger_info := logger INFO.
Definition logger_warning := logger WARNING.
Definition logger_error := logger ERROR.

(** A method called on [strat_logger] without a guard: records on the
    strategy logger, or raises when the argument is [None]. *)
Definition strat_call (strat_logger : option StrategyLogger) (attr : string)
    (r : StratRecord) : M unit :=
  match strat_logger with
  | Some _ =>
      fun w => (mkWorld (broker w) (calls w) (log w) (r :: strat w), inr tt)
  | None => raise (AttributeError attr)
  end.

(** [if strat_logger: strat_logger.method(...)]. *)
Definition strat_if (strat_logger : option StrategyLogger) (attr : string)
    (r : StratRecord) : M unit :=
  match strat_logger with
  | Some _ => strat_call strat_logger attr r
  | None => ret tt
  end.

(** A call on a collaborator: records it, runs it on the broker state and
    hands back its answer, an exception being a value here (the caller
    decides whether it is caught). *)
Definition invoke {A} (c : Call) (f : B -> B * (E + A)) : M (E + A) :=
  fun w => let (b', r) := f (broker w) in
           (mkWorld b' (c :: calls w) (log w) (strat w), inr r).

(** The same outside any [try]: the exception propagates. *)
Definition invoke_raising {A} (c : Call) (f : B -> B * (E + A)) : M A :=
  let! r := invoke c f in
  match r with
  | inr a => ret a
  | inl e => raise (Raised e)
  end.

(** The brokerage client. *)
Record BrokerClient := mkClient {
  get_positions : B -> B * (E + list Position.t);
  get_stock_latest_trade :
    gset string -> B -> B * (E + gmap string Trade.t);
  get_option_snapshot :
    list string -> B -> B * (E + gmap string Snapshot.t);
  get_options_contracts :
    list string -> string -> B -> B * (E + list OptionContract.t);
  market_sell : string -> B -> B * (E + unit);
  submit_order : MarketOrderRequest.t -> B -> B * (E + OrderResponse.t)
}.

(** [for x in xs: body], the loop state [s] holding the variables the body
    assigns; the loops that use it have no [break]. *)
Fixpoint for_each {X S} (xs : list X) (body : X -> S -> M S) (s : S) : M S :=
  match xs with
  | [] => ret s
  | x :: xs' => let! s' := body x s in for_each xs' body s'
  end.

(** ** manage_open_puts *)

(** [parse_option_symbol] of [core/utils.py]: the triple (underlying, option
    type, strike), or the message of the [ValueError] it raises. *)
Context (parse_option_symbol : string -> string + (string * string * Q)).

Definition Qlt_bool (x y : Q) : bool := negb (Qle_bool y x).

(** Line 80: [p.asset_class == AssetClass.US_OPTION and int(p.qty) < 0]. *)
Definition is_short_option (p : Position.t) : bool :=
  AssetClass_eqb (Position.asset_class p) US_OPTION
  && (Position.qty p <? 0)%Z.

(** Lines 92-106, the body of the first loop; the state is
    [(underlyings, put_details)]. *)
Definition collect_put (position : Position.t)
    (s : list string * list (string * PutDetail.t))
  : M (list string * list (string * PutDetail.t)) :=
  let '(underlyings, put_details) := s in
  match parse_option_symbol (Position.symbol position) with
  | inr (underlying, option_type, strike_price) =>
      if String.eqb option_type "P" then
        ret (underlyings ++ [underlying],
             dict_set put_details (Position.symbol position)
               {| PutDetail.underlying := underlying;
                  PutDetail.strike := strike_price;
                  PutDetail.qty := Z.abs (Position.qty position);
                  PutDetail.avg_entry_price :=
                    Qabs (Position.avg_entry_price position);
                  PutDetail.position := position |})
      else ret (underlyings, put_details)
  | inl e =>
      do! logger_warning (CouldNotParse (Position.symbol position) e) in
      ret (underlyings, put_details)
  end.

(** Lines 150-159: the current option price, [None] when the position is
    skipped for want of price data. *)
Definition current_option_price (option_snapshot : Snapshot.t) : option Q :=
  match Snapshot.latest_quote option_snapshot with
  | Some latest_quote =>
      match Quote.bid_price latest_quote, Quote.ask_price latest_quote with
      | Some bid_price, Some ask_price =>
          if truthy (Some bid_price) && truthy (Some ask_price)
          then Some ((bid_price + ask_price) / 2)
          else Some (or_zero (Some ask_price))
      | _, ask_price => Some (or_zero ask_price)
      end
  | None =>
      match Snapshot.latest_trade option_snapshot with
      | Some latest_trade => Some (Trade.price latest_trade)
      | None => None
      end
  end.

(** Lines 164-170. *)
Definition unrealized_pnl (premium_collected current_option_price : Q) : Q :=
  fsub premium_collected current_option_price.

Definition pnl_percentage (premium_collected current_option_price : Q) : Q :=
  if Qlt_bool 0 premium_collected
  then fdiv (unrealized_pnl premium_collected current_option_price)
         premium_collected
  else 0.

(** Line 174. *)
Definition should_close (pnl_pct target_pct : Q) : bool :=
  Qle_bool target_pct (Qabs pnl_pct).

(** An element of [positions_to_close]: (details, reason, pnl). *)
Definition Decision : Type := PutDetail.t * Reason * Q.

(** Lines 129-191, the body of the second loop; the state is
    [positions_to_close]. *)
Definition evaluate_position (stock_prices : gmap string Trade.t)
    (option_snapshots : gmap string Snapshot.t) (target_pct : Q)
    (item : string * PutDetail.t) (positions_to_close : list Decision)
  : M (list Decision) :=
  let '(option_symbol, details) := item in
  let underlying := PutDetail.underlying details in
  let strike := PutDetail.strike details in
  let premium_collected := PutDetail.avg_entry_price details in
  match stock_prices !! underlying with
  | None =>
      do! logger_warning (NoStockPriceData underlying) in
      ret positions_to_close
  | Some stock_trade =>
      let current_stock_price := Trade.price stock_trade in
      match option_snapshots !! option_symbol with
      | None =>
          do! logger_warning (NoOptionPriceData option_symbol) in
          ret positions_to_close
      | Some option_snapshot =>
          match current_option_price option_snapshot with
          | None =>
              do! logger_warning (NoPriceDataAvailable option_symbol) in
              ret positions_to_close
          | Some current =>
              let pnl := unrealized_pnl premium_collected current in
              let pnl_pct := pnl_percentage premium_collected current in
              do! logger_info
                    (PositionStatus option_symbol current_stock_price strike
                       premium_collected current pnl pnl_pct) in
              if should_close pnl_pct target_pct then
                if Qle_bool target_pct pnl_pct then
                  do! logger_info
                        (ProfitTargetReached option_symbol pnl_pct
                           target_pct pnl) in
                  ret (positions_to_close ++ [(details, profit_target, pnl)])
                else
                  do! logger_info
                        (LossLimitReached option_symbol pnl_pct
                           target_pct pnl) in
                  ret (positions_to_close ++ [(details, loss_limit, pnl)])
              else ret positions_to_close
          end
      end
  end.

(** Lines 204-210: the buy-to-close order. *)
Definition close_order (details : PutDetail.t) : MarketOrderRequest.t :=
  {| MarketOrderRequest.symbol :=
       Position.symbol (PutDetail.position details);
     MarketOrderRequest.qty := PutDetail.qty details;
     MarketOrderRequest.side := BUY;
     MarketOrderRequest.type := MARKET;
     MarketOrderRequest.time_in_force := DAY |}.

(** Lines 215-223. *)
Definition closed_record (d : Decision) (order_response : OrderResponse.t)
  : ClosedPosition.t :=
  let '(details, reason, pnl) := d in
  {| ClosedPosition.symbol := Position.symbol (PutDetail.position details);
     ClosedPosition.underlying := PutDetail.underlying details;
     ClosedPosition.strike := PutDetail.strike details;
     ClosedPosition.reason := reason;
     ClosedPosition.pnl := pnl;
     ClosedPosition.premium_collected := PutDetail.avg_entry_price details;
     ClosedPosition.order_id := OrderResponse.id order_response |}.

(** Lines 195-226, the body of the third loop; the state is
    [closed_positions]. The [try] catches every exception of
    [submit_order]. *)
Definition close_position (client : BrokerClient) (d : Decision)
    (closed_positions : list ClosedPosition.t) : M (list ClosedPosition.t) :=
  let '(details, reason, pnl) := d in
  let option_symbol := Position.symbol (PutDetail.position details) in
  let action_desc :=
    match reason with
    | profit_target => "taking profit"
    | loss_limit => "cutting loss"
    end in
  do! logger_info (BuyingBack option_symbol action_desc pnl) in
  let! r := invoke (call_submit_order (close_order details))
                   (submit_order client (close_order details)) in
  match r with
  | inr order_response =>
      do! logger_info
            (SubmittedCloseOrder option_symbol
               (OrderResponse.id order_response)) in
      ret (closed_positions ++ [closed_record d order_response])
  | inl e =>
      do! logger_error (FailedToClose option_symbol e) in
      ret closed_positions
  end.

(** Lines 127-234: what follows the two fetches. *)
Definition evaluate_and_close (client : BrokerClient) (target_pct : Q)
    (strat_logger : option StrategyLogger) (put_positions : list Position.t)
    (put_details : list (string * PutDetail.t))
    (stock_prices : gmap string Trade.t)
    (option_snapshots : gmap string Snapshot.t)
  : M (option (list ClosedPosition.t)) :=
  let! positions_to_close :=
    for_each put_details
      (evaluate_position stock_prices option_snapshots target_pct) [] in
  let! closed_positions :=
    for_each positions_to_close (close_position client) [] in
  do! match closed_positions with
      | _ :: _ => strat_if strat_logger "log_closed_puts"
                    (log_closed_puts closed_positions)
      | [] => ret tt
      end in
  do! logger_info
        (ClosedCount (length closed_positions) (length put_positions)) in
  ret (Some closed_positions).

(** The function; [None] is Python's [None], returned by the bare
    [return]s. [get_positions] is called outside any [try]. The argument
    [list(set(underlyings))] of the stock-price fetch is a list in no
    particular order, hence a finite set here. *)
Definition manage_open_puts (client : BrokerClient) (target_pct : Q)
    (strat_logger : option StrategyLogger)
  : M (option (list ClosedPosition.t)) :=
  let! positions := invoke_raising call_get_positions (get_positions client) in
  let put_positions := List.filter is_short_option positions in
  match put_positions with
  | [] =>
      do! logger_info NoOpenPutPositions in
      ret None
  | _ :: _ =>
      do! logger_info (ManagingOpenPuts (length put_positions)) in
      let! collected := for_each put_positions collect_put ([], []) in
      let underlyings := fst collected in
      let put_details := snd collected in
      match underlyings with
      | [] =>
          do! logger_info NoValidPutPositions in
          ret None
      | _ :: _ =>
          let! r1 := invoke
                       (call_get_stock_latest_trade (list_to_set underlyings))
                       (get_stock_latest_trade client
                          (list_to_set underlyings)) in
          match r1 with
          | inl e =>
              do! logger_error (FailedStockPrices e) in
              ret None
          | inr stock_prices =>
              let option_symbols := map fst put_details in
              let! r2 := invoke (call_get_option_snapshot option_symbols)
                           (get_option_snapshot client option_symbols) in
              match r2 with
              | inl e =>
                  do! logger_error (FailedOptionSnapshots e) in
                  ret None
              | inr option_snapshots =>
                  evaluate_and_close client target_pct strat_logger
                    put_positions put_details stock_prices option_snapshots
              end
          end
      end
  end.

(** ** The candidate pipeline

    [core/strategy.py] and [models/contract.py] are collaborators: the pure
    ones are functions, those that are handed the client are transformers of
    the broker state that may raise. *)
Context (filter_underlying : list string -> Q -> B -> B * (E + list string)).
Context (filter_options : list Contract.t -> option Q -> list Contract.t).
Context (score_options : list Contract.t -> list Q).
Context (select_options : list Contract.t -> list Q -> list Contract.t).
Context (from_contract_snapshot : OptionContract.t -> Snapshot.t -> Contract.t).
Context (from_contract : OptionContract.t -> B -> B * (E + Contract.t)).

(** ** sell_puts *)

(** Lines 34-41: the loop over the selected puts, with its [break]. *)
Fixpoint sell_selected (client : BrokerClient)
    (strat_logger : option StrategyLogger) (put_options : list Contract.t)
    (buying_power : Q) : M unit :=
  match put_options with
  | [] => ret tt
  | p :: rest =>
      let buying_power := fsub buying_power (fmul 100 (Contract.strike p)) in
      if Qlt_bool buying_power 0 then ret tt
      else
        do! logger_info (SellingPut (Contract.symbol p)) in
        do! invoke_raising (call_market_sell (Contract.symbol p))
              (market_sell client (Contract.symbol p)) in
        do! strat_if strat_logger "log_sold_puts" (log_sold_puts [p]) in
        sell_selected client strat_logger rest buying_power
  end.

(** Line 26: the contracts that have a snapshot, as [Contract]s. *)
Definition contracts_with_snapshot (option_contracts : list OptionContract.t)
    (snapshots : gmap string Snapshot.t) : list Contract.t :=
  omap (fun contract =>
          match snapshots !! OptionContract.symbol contract with
          | Some snapshot => Some (from_contract_snapshot contract snapshot)
          | None => None
          end) option_contracts.

Definition sell_puts (client : BrokerClient) (allowed_symbols : list string)
    (buying_power : Q) (strat_logger : option StrategyLogger) : M unit :=
  if match allowed_symbols with [] => true | _ :: _ => false end
     || Qle_bool buying_power 0
  then ret tt
  else
    do! logger_info SearchingPuts in
    let! filtered_symbols :=
      invoke_raising (call_filter_underlying allowed_symbols buying_power)
        (filter_underlying allowed_symbols buying_power) in
    do! strat_call strat_logger "set_filtered_symbols"
          (set_filtered_symbols filtered_symbols) in
    if (length filtered_symbols =? 0)%nat then
      do! logger_info NoSymbolsWithBuyingPower in
      ret tt
    else
      let! option_contracts :=
        invoke_raising (call_get_options_contracts filtered_symbols "put")
          (get_options_contracts client filtered_symbols "put") in
      let! snapshots :=
        invoke_raising
          (call_get_option_snapshot
             (map OptionContract.symbol option_contracts))
          (get_option_snapshot client
             (map OptionContract.symbol option_contracts)) in
      let put_options :=
        filter_options (contracts_with_snapshot option_contracts snapshots)
          None in
      do! strat_if strat_logger "log_put_options"
            (log_put_options put_options) in
      match put_options with
      | _ :: _ =>
          do! logger_info ScoringPuts in
          let scores := score_options put_options in
          let put_options := select_options put_options scores in
          sell_selected client strat_logger put_options buying_power
      | [] =>
          logger_info NoPutOptionsFound
      end.

(** ** sell_calls *)

(** [np.argmax]: the index of the first occurrence of the greatest score.
    [argmax_from rest i best best_score] scans [rest], whose head has index
    [i], [best] being the index of the greatest score seen so far. *)
Fixpoint argmax_from (scores : list Q) (i best : nat) (best_score : Q) : nat :=
  match scores with
  | [] => best
  | s :: rest =>
      if Qlt_bool best_score s
      then argmax_from rest (S i) i s
      else argmax_from rest (S i) best best_score
  end.

Definition argmax (scores : list Q) : option nat :=
  match scores with
  | [] => None
  | s :: rest => Some (argmax_from rest 1 0 s)
  end.

(** Line 55, the list comprehension: one [Contract.from_contract] per
    contract, in order. *)
Definition from_contract_step (option : OptionContract.t)
    (acc : list Contract.t) : M (list Contract.t) :=
  let! c := invoke_raising (call_from_contract option)
              (from_contract option) in
  ret (acc ++ [c]).

Definition from_contracts (options : list OptionContract.t)
  : M (list Contract.t) :=
  for_each options from_contract_step [].

(** Lines 59-67: the sale of the best-scored call. *)
Definition sell_top_call (client : BrokerClient) (symbol : string)
    (strat_logger : option StrategyLogger) (call_options : list Contract.t)
  : M unit :=
  match call_options with
  | _ :: _ =>
      let scores := score_options call_options in
      match argmax scores with
      | None => raise ArgmaxOfEmpty
      | Some i =>
          match call_options !! i with
          | None => raise IndexError
          | Some contract =>
              do! logger_info (SellingCall (Contract.symbol contract)) in
              do! invoke_raising (call_market_sell (Contract.symbol contract))
                    (market_sell client (Contract.symbol contract)) in
              strat_if strat_logger "log_sold_calls" (log_sold_calls contract)
          end
      end
  | [] =>
      logger_info (NoViableCalls symbol)
  end.

(** Lines 54-67: what follows the check on [stock_qty]. *)
Definition sell_best_call (client : BrokerClient) (symbol : string)
    (purchase_price : Q) (strat_logger : option StrategyLogger) : M unit :=
  do! logger_info (SearchingCalls symbol) in
  let! option_contracts :=
    invoke_raising (call_get_options_contracts [symbol] "call")
      (get_options_contracts client [symbol] "call") in
  let! contracts := from_contracts option_contracts in
  let call_options := filter_options contracts (Some purchase_price) in
  do! strat_if strat_logger "log_call_options"
        (log_call_options call_options) in
  sell_top_call client symbol strat_logger call_options.

Definition sell_calls (client : BrokerClient) (symbol : string)
    (purchase_price : Q) (stock_qty : Z)
    (strat_logger : option StrategyLogger) : M unit :=
  if (stock_qty <? 100)%Z then
    do! logger_error (NotEnoughShares symbol stock_qty) in
    raise (InsufficientShares symbol stock_qty)
  else
    sell_best_call client symbol purchase_price strat_logger.

(** ** Views of the three loops of manage_open_puts

    What each loop computes, apart from what it logs; the lemmas below
    relate them to the loops. *)

(** The state of the first loop after one position. *)
Definition collect_put_state (position : Position.t)
    (s : list string * list (string * PutDetail.t))
  : list string * list (string * PutDetail.t) :=
  match parse_option_symbol (Position.symbol position) with
  | inr (underlying, option_type, strike_price) =>
      if String.eqb option_type "P" then
        (fst s ++ [underlying],
         dict_set (snd s) (Position.symbol position)
           {| PutDetail.underlying := underlying;
              PutDetail.strike := strike_price;
              PutDetail.qty := Z.abs (Position.qty position);
              PutDetail.avg_entry_price :=
                Qabs (Position.avg_entry_price position);
              PutDetail.position := position |})
      else s
  | inl _ => s
  end.

(** [(underlyings, put_details)] after the first loop. *)
Definition collected (put_positions : list Position.t)
  : list string * list (string * PutDetail.t) :=
  fold_left (fun s position => collect_put_state position s)
    put_positions ([], []).

(** The price at which the second loop evaluates an entry of
    [put_details], [None] when the entry is skipped. *)
Definition evaluated_price (stock_prices : gmap string Trade.t)
    (option_snapshots : gmap string Snapshot.t)
    (item : string * PutDetail.t) : option Q :=
  match stock_prices !! PutDetail.underlying (snd item) with
  | None => None
  | Some _ =>
      match option_snapshots !! fst item with
      | None => None
      | Some option_snapshot => current_option_price option_snapshot
      end
  end.

(** What the second loop appends to [positions_to_close] for an entry. *)
Definition closure_decision (stock_prices : gmap string Trade.t)
    (option_snapshots : gmap string Snapshot.t) (target_pct : Q)
    (item : string * PutDetail.t) : option Decision :=
  match evaluated_price stock_prices option_snapshots item with
  | None => None
  | Some current =>
      let premium_collected := PutDetail.avg_entry_price (snd item) in
      let pnl_pct := pnl_percentage premium_collected current in
      if should_close pnl_pct target_pct then
        Some (snd item,
              if Qle_bool target_pct pnl_pct then profit_target
              else loss_limit,
              unrealized_pnl premium_collected current)
      else None
  end.

(** The answers of the broker to the closing orders of [ds], submitted in
    order from the broker state [b]. *)
Fixpoint submissions (client : BrokerClient) (ds : list Decision) (b : B)
  : list (Decision * (E + OrderResponse.t)) :=
  match ds with
  | [] => []
  | d :: ds' =>
      let (b', r) := submit_order client (close_order (fst (fst d))) b in
      (d, r) :: submissions client ds' b'
  end.

(** The broker state after these submissions. *)
Fixpoint after_submissions (client : BrokerClient) (ds : list Decision)
    (b : B) : B :=
  match ds with
  | [] => b
  | d :: ds' =>
      after_submissions client ds'
        (fst (submit_order client (close_order (fst (fst d))) b))
  end.

(** The record of a submission that succeeded. *)
Definition closed_of (s : Decision * (E + OrderResponse.t))
  : option ClosedPosition.t :=
  match snd s with
  | inr order_response => Some (closed_record (fst s) order_response)
  | inl _ => None
  end.

(** The error logged for a submission that failed. *)
Definition failure_of (s : Decision * (E + OrderResponse.t))
  : option (Level * Msg) :=
  match snd s with
  | inr _ => None
  | inl e =>
      Some (ERROR,
            FailedToClose
              (Position.symbol (PutDetail.position (fst (fst (fst s))))) e)
  end.

(** The cycle has nothing to evaluate: no short option position, no put
    that survives parsing, or a bulk fetch that fails. [b1] is the broker
    state in which [get_positions] left the broker. *)
Definition nothing_to_evaluate (client : BrokerClient)
    (positions : list Position.t) (b1 : B) : Prop :=
  let put_positions := List.filter is_short_option positions in
  let underlyings := fst (collected put_positions) in
  let put_details := snd (collected put_positions) in
  let fetch1 :=
    get_stock_latest_trade client (list_to_set underlyings) b1 in
  let fetch2 :=
    get_option_snapshot client (map fst put_details) (fst fetch1) in
  put_positions = []
  \/ underlyings = []
  \/ (exists e, snd fetch1 = inl e)
  \/ (exists e, snd fetch2 = inl e).

(** The world with [l] logged, newest first. *)
Definition logged (l : list (Level * Msg)) (w : World) : World :=
  mkWorld (broker w) (calls w) (l ++ log w) (strat w).

(** The symbols of the [market_sell] calls of a trace, oldest first. *)
Definition sold_symbols (cs : list Call) : list string :=
  omap (fun c => match c with
                 | call_market_sell symbol => Some symbol
                 | _ => None
                 end) (rev cs).

(** The orders of the [submit_order] calls of a trace, oldest first. *)
Definition submitted_orders (cs : list Call) : list MarketOrderRequest.t :=
  omap (fun c => match c with
                 | call_submit_order order => Some order
                 | _ => None
                 end) (rev cs).

(** The trace of a cycle that reaches the third loop: the three reads, then
    one [submit_order] per decision. *)
Definition cycle_calls (underlyings : list string)
    (put_details : list (string * PutDetail.t)) (ds : list Decision)
    (cs : list Call) : list Call :=
  rev (map (fun d => call_submit_order (close_order (fst (fst d)))) ds)
  ++ call_get_option_snapshot (map fst put_details)
  :: call_get_stock_latest_trade (list_to_set underlyings)
  :: call_get_positions :: cs.

(** A computation that never raises the error of the round-lot check. *)
Definition passes_check {A} (m : M A) : Prop :=
  forall (w : World) (symbol : string) (stock_qty : Z),
    snd (m w) <> inl (InsufficientShares symbol stock_qty).

(** The running budget of line 35 after the puts [ps], from
    [buying_power]. *)
Definition running_budget (buying_power : Q) (ps : list Contract.t) : Q :=
  fold_left (fun budget p => fsub budget (fmul 100 (Contract.strike p)))
    ps buying_power.

(** Selling [ps] in order never takes the running budget below zero. *)
Definition affordable (buying_power : Q) (ps : list Contract.t) : Prop :=
  forall qs, qs `prefix_of` ps -> qs <> [] ->
    0 <= running_budget buying_power qs.

(** Modelled from the spec: the cumulative cost of a list of puts, 100
    times the strikes, as a sum of rationals. *)
Definition cost (ps : list Contract.t) : Q :=
  fold_right (fun p acc => 100 * Contract.strike p + acc) 0 ps.

(** Modelled from the spec: the cumulative cost of [ps] stays within the
    initial budget, at every prefix. *)
Definition within_budget (buying_power : Q) (ps : list Contract.t) : Prop :=
  forall qs, qs `prefix_of` ps -> cost qs <= buying_power.

(** A test for [within_budget]: [spent] is the cost of the puts before
    [ps]. *)
Fixpoint within_budget_from (spent buying_power : Q) (ps : list Contract.t)
  : bool :=
  Qle_bool spent buying_power
  && match ps with
     | [] => true
     | p :: rest =>
         within_budget_from (spent + 100 * Contract.strike p) buying_power
           rest
     end.

(** [i] is the first index at which [scores] is greatest. *)
Definition first_max (scores : list Q) (i : nat) : Prop :=
  exists s_i, scores !! i = Some s_i /\
    forall j s_j, scores !! j = Some s_j ->
      s_j <= s_i /\ ((j < i)%nat -> s_j < s_i).

(** ** Views for the traces and the detail map *)

(** Every call that [m] adds to the trace satisfies [P]. *)
Definition emits {A} (P : Call -> Prop) (m : M A) : Prop :=
  forall w, exists l, calls (fst (m w)) = l ++ calls w /\ Forall P l.

(** The calls of a monitoring cycle: the three reads, and closing orders
    that buy at the market for the day. *)
Definition monitor_call (c : Call) : Prop :=
  match c with
  | call_get_positions => True
  | call_get_stock_latest_trade _ => True
  | call_get_option_snapshot _ => True
  | call_submit_order order =>
      MarketOrderRequest.side order = BUY
      /\ MarketOrderRequest.type order = MARKET
      /\ MarketOrderRequest.time_in_force order = DAY
  | _ => False
  end.

(** The calls of a put-selling pass. *)
Definition put_selling_call (c : Call) : Prop :=
  match c with
  | call_filter_underlying _ _ => True
  | call_get_options_contracts _ side => side = "put"
  | call_get_option_snapshot _ => True
  | call_market_sell _ => True
  | _ => False
  end.

(** The calls of a covered-call sale on [symbol]. *)
Definition call_selling_call (symbol : string) (c : Call) : Prop :=
  match c with
  | call_get_options_contracts symbols side =>
      symbols = [symbol] /\ side = "call"
  | call_from_contract _ => True
  | call_market_sell _ => True
  | _ => False
  end.

(** The position parses, and as a put. *)
Definition is_put_position (position : Position.t) : bool :=
  match parse_option_symbol (Position.symbol position) with
  | inr (_, option_type, _) => String.eqb option_type "P"
  | inl _ => false
  end.

(** The warnings of the first loop, oldest first. *)
Definition parse_warnings (put_positions : list Position.t)
  : list (Level * Msg) :=
  omap (fun position =>
          match parse_option_symbol (Position.symbol position) with
          | inl e =>
              Some (WARNING, CouldNotParse (Position.symbol position) e)
          | inr _ => None
          end) put_positions.

(** An entry of [put_details] as lines 97-103 build it from one of
    [positions]. *)
Definition entry_of (positions : list Position.t)
    (entry : string * PutDetail.t) : Prop :=
  let position := PutDetail.position (snd entry) in
  position ∈ positions
  /\ is_short_option position = true
  /\ fst entry = Position.symbol position
  /\ parse_option_symbol (fst entry)
     = inr (PutDetail.underlying (snd entry), "P",
            PutDetail.strike (snd entry))
  /\ PutDetail.qty (snd entry) = Z.abs (Position.qty position)
  /\ (0 < PutDetail.qty (snd entry))%Z
  /\ PutDetail.avg_entry_price (snd entry)
     = Qabs (Position.avg_entry_price position)
  /\ 0 <= PutDetail.avg_entry_price (snd entry).

(** A closing order as lines 204-210 build it for one of [positions]. *)
Definition closes_short_put (positions : list Position.t)
    (order : MarketOrderRequest.t) : Prop :=
  MarketOrderRequest.side order = BUY
  /\ MarketOrderRequest.type order = MARKET
  /\ MarketOrderRequest.time_in_force order = DAY
  /\ (0 < MarketOrderRequest.qty order)%Z
  /\ exists position,
       position ∈ positions
       /\ is_short_option position = true
       /\ is_put_position position = true
       /\ MarketOrderRequest.symbol order = Position.symbol position
       /\ MarketOrderRequest.qty order = Z.abs (Position.qty position).

(** The symbols of the puts recorded as sold on the strategy logger, oldest
    first. *)
Definition recorded_sales (rs : list StratRecord) : list string :=
  flat_map (fun r => match r with
                     | log_sold_puts options => map Contract.symbol options
                     | _ => []
                     end) (rev rs).

End Execution.

(** * Fixtures: the mocks of [test_manage_open_puts.py] *)

Definition aapl_put : string := "AAPL250920P00150000".
Definition aapl_call : string := "AAPL250920C00150000".
Definition msft_put : string := "MSFT250920P00300000".

(** A parser for the symbols the fixtures use; any other symbol is
    malformed. *)
Definition parse_fixture (symbol : string)
  : string + (string * string * Q) :=
  if String.eqb symbol aapl_put then inr ("AAPL", "P", 150)
  else if String.eqb symbol aapl_call then inr ("AAPL", "C", 150)
  else if String.eqb symbol msft_put then inr ("MSFT", "P", 300)
  else inl "Invalid option symbol format".

(** [make_mock_position]. *)
Definition make_mock_position (symbol : string) (qty : Z) (avg_entry_price : Q)
  : Position.t :=
  Position.mk symbol qty avg_entry_price US_OPTION.

(** The fixtures compute with the exact operations. *)
#[global] Existing Instance exact_arithmetic.

(** [make_snapshot]: bid and ask at 90% and 110% of the price. The
    literals 0.9 and 1.1 are written as the rationals they read; the
    binary64 operations take the doubles nearest to them. *)
Definition make_snapshot {arith : FloatArith} (price : Q) : Snapshot.t :=
  Snapshot.mk
    (Some (Quote.mk (Some (fmul price (9 # 10)))
             (Some (fmul price (11 # 10)))))
    (Some (Trade.mk price)).

(** [mock_client]: the broker state counts the orders submitted; every
    call succeeds and every order is assigned ["mock_order_id"]. *)
Definition mock_client (positions : list Position.t)
    (stock_prices : gmap string Trade.t)
    (snapshots : gmap string Snapshot.t) : @BrokerClient nat string :=
  {| get_positions := fun b => (b, inr positions);
     get_stock_latest_trade := fun _ b => (b, inr stock_prices);
     get_option_snapshot := fun _ b => (b, inr snapshots);
     get_options_contracts := fun _ _ b => (b, inr []);
     market_sell := fun _ b => (b, inr tt);
     submit_order := fun _ b => (S b, inr (OrderResponse.mk "mock_order_id"))
  |}.

(** A client whose first [submit_order] is rejected. *)
Definition flaky_client (positions : list Position.t)
    (stock_prices : gmap string Trade.t)
    (snapshots : gmap string Snapshot.t) : @BrokerClient nat string :=
  {| get_positions := fun b => (b, inr positions);
     get_stock_latest_trade := fun _ b => (b, inr stock_prices);
     get_option_snapshot := fun _ b => (b, inr snapshots);
     get_options_contracts := fun _ _ b => (b, inr []);
     market_sell := fun _ b => (b, inr tt);
     submit_order := fun _ b =>
       match b with
       | O => (S b, inl "order rejected")
       | S _ => (S b, inr (OrderResponse.mk "mock_order_id"))
       end
  |}.

(** A client whose bulk stock-price fetch raises. *)
Definition no_quotes_client (positions : list Position.t)
  : @BrokerClient nat string :=
  {| get_positions := fun b => (b, inr positions);
     get_stock_latest_trade := fun _ b => (b, inl "quotes unavailable");
     get_option_snapshot := fun _ b => (b, inr ∅);
     get_options_contracts := fun _ _ b => (b, inr []);
     market_sell := fun _ b => (b, inr tt);
     submit_order := fun _ b => (S b, inr (OrderResponse.mk "mock_order_id"))
  |}.

(** A client that serves an option chain; the broker state counts the
    contracts sold. *)
Definition chain_client (chain : list OptionContract.t)
    (snapshots : gmap string Snapshot.t) : @BrokerClient nat string :=
  {| get_positions := fun b => (b, inr []);
     get_stock_latest_trade := fun _ b => (b, inr ∅);
     get_option_snapshot := fun _ b => (b, inr snapshots);
     get_options_contracts := fun _ _ b => (b, inr chain);
     market_sell := fun _ b => (S b, inr tt);
     submit_order := fun _ b => (b, inl "not used")
  |}.

Definition world0 : @World nat string := mkWorld 0%nat [] [] [].

(** Stand-ins for the candidate pipeline: every symbol and every contract
    qualifies, the score is the bid, the selection keeps the order. *)
Definition nothing_affordable (symbols : list string) (buying_power : Q)
    (b : nat) : nat * (string + list string) := (b, inr []).

Definition all_affordable (symbols : list string) (buying_power : Q)
    (b : nat) : nat * (string + list string) := (b, inr symbols).

Definition keep_all (contracts : list Contract.t) (reference : option Q)
  : list Contract.t := contracts.

Definition score_by_bid (contracts : list Contract.t) : list Q :=
  map Contract.bid_price contracts.

Definition keep_order (contracts : list Contract.t) (scores : list Q)
  : list Contract.t := contracts.

Definition contract_of (bid : Q) (option : OptionContract.t) : Contract.t :=
  Contract.mk (OptionContract.symbol option)
    (OptionContract.underlying_symbol option)
    (OptionContract.strike_price option) "put" None None bid bid bid.

Definition contract_of_snapshot (option : OptionContract.t)
    (snapshot : Snapshot.t) : Contract.t :=
  contract_of
    (match Snapshot.latest_trade snapshot with
     | Some t => Trade.price t
     | None => 0
     end) option.

(** A call whose bid is its strike less 150. *)
Definition call_of (option : OptionContract.t) (b : nat)
  : nat * (string + Contract.t) :=
  (b, inr (contract_of (OptionContract.strike_price option - 150) option)).

(** The snapshot of a quote that carries neither bid nor ask, with a latest
    trade at 1.50. *)
Definition empty_quote_with_trade : Snapshot.t :=
  Snapshot.mk (Some (Quote.mk (Some 0) (Some 0))) (Some (Trade.mk (3 # 2))).

(** The same without any trade: none of the three price sources. *)
Definition empty_quote_no_trade : Snapshot.t :=
  Snapshot.mk (Some (Quote.mk None None)) None.

(** The scenarios. *)

Definition aapl_short_put : Position.t := make_mock_position aapl_put (-1) 2.
Definition msft_short_put : Position.t := make_mock_position msft_put (-2) 4.

Definition aapl_detail (premium_collected : Q) : PutDetail.t :=
  PutDetail.mk "AAPL" 150 1 premium_collected aapl_short_put.

Definition stocks : gmap string Trade.t :=
  {[ "AAPL" := Trade.mk 155; "MSFT" := Trade.mk 310 ]}.

(** Both puts trade at a twentieth of the premium collected. *)
Definition cheap_options : gmap string Snapshot.t :=
  {[ aapl_put := make_snapshot (1 # 10); msft_put := make_snapshot (1 # 5) ]}.

(** One monitoring cycle at the default target of 90%, without a strategy
    logger. *)
Definition cycle (client : @BrokerClient nat string)
  : World * (exn + option (list ClosedPosition.t)) :=
  manage_open_puts parse_fixture client (9 # 10) None world0.

Definition put_chain : list OptionContract.t :=
  [ OptionContract.mk "AAPL250920P00150000" "AAPL" 150;
    OptionContract.mk "AAPL250920P00140000" "AAPL" 140 ].

Definition put_chain_snapshots : gmap string Snapshot.t :=
  {[ "AAPL250920P00150000" := make_snapshot 2;
     "AAPL250920P00140000" := make_snapshot 1 ]}.

Definition call_chain : list OptionContract.t :=
  [ OptionContract.mk "AAPL250920C00151000" "AAPL" 151;
    OptionContract.mk "AAPL250920C00153000" "AAPL" 153;
    OptionContract.mk "AAPL250920C00153500" "AAPL" 153 ].

Definition sell_puts_fixture (filter_underlying :
    list string -> Q -> nat -> nat * (string + list string))
  := sell_puts filter_underlying keep_all score_by_bid keep_order
       contract_of_snapshot.

Definition sell_calls_fixture := sell_calls keep_all score_by_bid call_of.

(** Further stand-ins: a filter that lets nothing through, a contract
    builder that raises, and a client whose [get_positions] raises. *)
Definition keep_none (contracts : list Contract.t) (reference : option Q)
  : list Contract.t := [].

Definition no_call_of (option : OptionContract.t) (b : nat)
  : nat * (string + Contract.t) := (b, inl "no snapshot").

Definition no_positions_client : @BrokerClient nat string :=
  {| get_positions := fun b => (b, inl "positions unavailable");
     get_stock_latest_trade := fun _ b => (b, inr ∅);
     get_option_snapshot := fun _ b => (b, inr ∅);
     get_options_contracts := fun _ _ b => (b, inr []);
     market_sell := fun _ b => (b, inr tt);
     submit_order := fun _ b => (S b, inr (OrderResponse.mk "mock_order_id"))
  |}.

Definition aapl_short_call : Position.t :=
  make_mock_position aapl_call (-1) (5 # 2).

(** A chain client that rejects the sale of one symbol. *)
Definition picky_client (chain : list OptionContract.t)
    (snapshots : gmap string Snapshot.t) (rejected : string)
  : @BrokerClient nat string :=
  {| get_positions := fun b => (b, inr []);
     get_stock_latest_trade := fun _ b => (b, inr ∅);
     get_option_snapshot := fun _ b => (b, inr snapshots);
     get_options_contracts := fun _ _ b => (b, inr chain);
     market_sell := fun symbol b =>
       if String.eqb symbol rejected then (b, inl "sale rejected")
       else (S b, inr tt);
     submit_order := fun _ b => (b, inl "not used")
  |}.

(** Two puts struck at 305.70 and 79.04, whose margins add up to 38474. *)
Definition tight_chain : list OptionContract.t :=
  [ OptionContract.mk "XYZ250920P00305700" "XYZ" (double (3057 # 10));
    OptionContract.mk "XYZ250920P00079040" "XYZ" (double (7904 # 100)) ].

Definition tight_chain_snapshots : gmap string Snapshot.t :=
  {[ "XYZ250920P00305700" := Snapshot.mk None (Some (Trade.mk 2));
     "XYZ250920P00079040" := Snapshot.mk None (Some (Trade.mk 1)) ]}.

(** The selection of the fixtures on a chain: every contract, in order. *)
Definition selection_of (chain : list OptionContract.t)
    (snapshots : gmap string Snapshot.t) : list Contract.t :=
  keep_order
    (keep_all (contracts_with_snapshot contract_of_snapshot chain snapshots)
       None)
    (score_by_bid
       (keep_all
          (contracts_with_snapshot contract_of_snapshot chain snapshots)
          None)).

(** sell_puts on the tight chain with 38474 of buying power, under the
    given float operations. *)
Definition tight_sale (arith : FloatArith) : World * (exn + unit) :=
  @sell_puts nat string arith all_affordable keep_all score_by_bid keep_order
    contract_of_snapshot (chain_client tight_chain tight_chain_snapshots)
    ["XYZ"] 38474 (Some StratLogger) world0.

(** * Properties *)

Section Properties.

Context {B E : Type}.
Context {arith : FloatArith}.
Context (parse_option_symbol : string -> string + (string * string * Q)).

Abbreviation World := (@World B E).
Abbreviation BrokerClient := (@BrokerClient B E).

Ltac run :=
  unfold bind, ret, raise, logger_info, logger_warning, logger_error, logger;
  simpl.

(** A [match] on a list that is known not to be empty. *)
Lemma match_nonempty {X Y} (l : list X) (a b : Y) :
  l <> [] -> match l with [] => a | _ :: _ => b end = b.
Proof. destruct l; congruence. Qed.

(** ** Worlds *)

Lemma logged_nil (w : World) : logged [] w = w.
Proof. destruct w; reflexivity. Qed.

Lemma logged_logged l l' (w : World) :
  logged l' (logged l w) = logged (l' ++ l) w.
Proof. unfold logged; simpl. by rewrite app_assoc. Qed.

(** ** The first loop *)

Lemma collect_put_run position s (w : World) :
  exists l,
    collect_put parse_option_symbol position s w
    = (logged l w, inr (collect_put_state parse_option_symbol position s)).
Proof.
  destruct s as [underlyings put_details].
  unfold collect_put, collect_put_state.
  destruct (parse_option_symbol (Position.symbol position))
    as [e | [[underlying option_type] strike_price]]; simpl.
  - exists [(WARNING, CouldNotParse (Position.symbol position) e)].
    reflexivity.
  - exists []. rewrite logged_nil.
    destruct (String.eqb option_type "P"); reflexivity.
Qed.

Lemma collect_loop_run put_positions : forall s (w : World),
  exists l,
    for_each put_positions (collect_put parse_option_symbol) s w
    = (logged l w,
       inr (fold_left
              (fun s position =>
                 collect_put_state parse_option_symbol position s)
              put_positions s)).
Proof.
  induction put_positions as [| position rest IH]; intros s w; simpl.
  - exists []. by rewrite logged_nil.
  - unfold bind.
    destruct (collect_put_run position s w) as [l ->].
    destruct (IH (collect_put_state parse_option_symbol position s)
                 (logged l w)) as [l' ->].
    exists (l' ++ l). by rewrite logged_logged.
Qed.

(** Every put that parses adds its underlying and its entry together. *)
Lemma collected_underlyings_nil put_positions :
  fst (collected parse_option_symbol put_positions) = []
  <-> snd (collected parse_option_symbol put_positions) = [].
Proof.
  unfold collected.
  assert (G : forall ps s, (fst s = [] <-> snd s = []) ->
            (fst (fold_left
                    (fun s position =>
                       collect_put_state parse_option_symbol position s)
                    ps s) = []
             <-> snd (fold_left
                        (fun s position =>
                           collect_put_state parse_option_symbol position s)
                        ps s) = [])).
  { induction ps as [| p ps IH]; intros s Hs; simpl; [exact Hs |].
    apply IH. unfold collect_put_state.
    destruct (parse_option_symbol (Position.symbol p))
      as [e | [[u ty] k]]; [exact Hs |].
    destruct (String.eqb ty "P"); [| exact Hs]. simpl.
    split.
    - intros H. by destruct (fst s).
    - intros H. destruct (snd s) as [| [k' v'] d']; simpl in H;
        [discriminate |].
      destruct (String.eqb k' (Position.symbol p)); discriminate. }
  apply G. simpl. tauto.
Qed.

(** ** The second loop *)

Lemma evaluate_position_run stock_prices option_snapshots target_pct
    item positions_to_close (w : World) :
  exists l,
    evaluate_position stock_prices option_snapshots target_pct item
      positions_to_close w
    = (logged l w,
       inr (positions_to_close
            ++ option_list
                 (closure_decision stock_prices option_snapshots
                    target_pct item))).
Proof.
  destruct item as [option_symbol details].
  unfold evaluate_position, closure_decision, evaluated_price. simpl.
  destruct (stock_prices !! PutDetail.underlying details) as [stock_trade |].
  2: { eexists [_]. rewrite app_nil_r. reflexivity. }
  destruct (option_snapshots !! option_symbol) as [option_snapshot |].
  2: { eexists [_]. rewrite app_nil_r. reflexivity. }
  destruct (current_option_price option_snapshot) as [current |].
  2: { eexists [_]. rewrite app_nil_r. reflexivity. }
  run.
  destruct (should_close _ target_pct).
  2: { eexists [_]. rewrite app_nil_r. reflexivity. }
  destruct (Qle_bool target_pct _); eexists [_; _]; reflexivity.
Qed.

Lemma evaluate_loop_run stock_prices option_snapshots target_pct items :
  forall positions_to_close (w : World),
  exists l,
    for_each items
      (evaluate_position stock_prices option_snapshots target_pct)
      positions_to_close w
    = (logged l w,
       inr (positions_to_close
            ++ omap (closure_decision stock_prices option_snapshots
                       target_pct) items)).
Proof.
  induction items as [| item rest IH]; intros ptc w; simpl.
  - exists []. by rewrite logged_nil, app_nil_r.
  - unfold bind.
    destruct (evaluate_position_run stock_prices option_snapshots target_pct
                item ptc w) as [l ->].
    destruct (IH (ptc ++ option_list
                    (closure_decision stock_prices option_snapshots
                       target_pct item)) (logged l w)) as [l' ->].
    exists (l' ++ l). rewrite logged_logged. do 2 f_equal.
    rewrite <- app_assoc. f_equal.
    destruct (closure_decision _ _ _ item); reflexivity.
Qed.

(** ** The third loop *)

Lemma close_position_run (client : BrokerClient) d closed_positions
    (w : World) :
  exists l,
    close_position client d closed_positions w
    = (mkWorld
         (fst (submit_order client (close_order (fst (fst d))) (broker w)))
         (call_submit_order (close_order (fst (fst d))) :: calls w)
         (l ++ log w) (strat w),
       inr (closed_positions
            ++ option_list
                 (closed_of
                    (d, snd (submit_order client (close_order (fst (fst d)))
                               (broker w))))))
    /\ forall m,
         failure_of (d, snd (submit_order client (close_order (fst (fst d)))
                               (broker w))) = Some m ->
         m ∈ l.
Proof.
  destruct d as [[details reason] pnl].
  unfold close_position, closed_of, failure_of, invoke. run.
  destruct (submit_order client (close_order details) (broker w))
    as [b' [e | order_response]]; simpl.
  - eexists [_; _]. rewrite app_nil_r. split; [reflexivity |].
    intros m [= <-]. set_solver.
  - eexists [_; _]. split; [reflexivity | discriminate].
Qed.

Lemma close_loop_run (client : BrokerClient) ds :
  forall closed_positions (w : World),
  exists l,
    for_each ds (close_position client) closed_positions w
    = (mkWorld (after_submissions client ds (broker w))
         (rev (map (fun d => call_submit_order (close_order (fst (fst d))))
                 ds) ++ calls w)
         (l ++ log w) (strat w),
       inr (closed_positions
            ++ omap closed_of (submissions client ds (broker w))))
    /\ forall m,
         m ∈ omap failure_of (submissions client ds (broker w)) -> m ∈ l.
Proof.
  induction ds as [| d rest IH]; intros closed w; simpl.
  - exists []. rewrite app_nil_r. destruct w. split; [reflexivity |].
    intros m Hm. inversion Hm.
  - unfold bind.
    destruct (close_position_run client d closed w) as (l & -> & Hl).
    match goal with
    | |- context [for_each rest _ ?c ?w'] =>
        destruct (IH c w') as (l' & -> & Hl')
    end.
    simpl. exists (l' ++ l). split.
    + rewrite <- !app_assoc. simpl.
      destruct (submit_order client (close_order (fst (fst d))) (broker w))
        as [b' r]; simpl.
      do 2 f_equal. unfold closed_of at 1; simpl.
      destruct r; reflexivity.
    + intros m Hm. apply elem_of_app.
      destruct (submit_order client (close_order (fst (fst d))) (broker w))
        as [b' r]; simpl in *.
      destruct (failure_of (d, r)) as [m' |] eqn:Hf.
      * apply elem_of_cons in Hm as [-> | Hm]; [right; by apply Hl |].
        left. by apply Hl'.
      * left. by apply Hl'.
Qed.

(** ** manage_open_puts, stage by stage *)

Lemma manage_open_puts_evaluated (client : BrokerClient) target_pct
    strat_logger (w : World) b1 positions b2 stock_prices b3
    option_snapshots :
  get_positions client (broker w) = (b1, inr positions) ->
  let put_positions := List.filter is_short_option positions in
  let underlyings := fst (collected parse_option_symbol put_positions) in
  let put_details := snd (collected parse_option_symbol put_positions) in
  underlyings <> [] ->
  get_stock_latest_trade client (list_to_set underlyings) b1
  = (b2, inr stock_prices) ->
  get_option_snapshot client (map fst put_details) b2
  = (b3, inr option_snapshots) ->
  let ds :=
    omap (closure_decision stock_prices option_snapshots target_pct)
      put_details in
  exists l s,
    manage_open_puts parse_option_symbol client target_pct strat_logger w
    = (mkWorld (after_submissions client ds b3)
         (cycle_calls underlyings put_details ds (calls w))
         (l ++ log w) s,
       inr (Some (omap closed_of (submissions client ds b3))))
    /\ forall m, m ∈ omap failure_of (submissions client ds b3) -> m ∈ l.
Proof.
  intros Hpos put_positions underlyings put_details Hne Hsp Hsnap ds.
  assert (Hpp : put_positions <> []).
  { intros Hnil. apply Hne. subst underlyings. by rewrite Hnil. }
  unfold manage_open_puts, invoke_raising, invoke.
  unfold bind at 1 2. rewrite Hpos. simpl.
  fold put_positions. rewrite (match_nonempty put_positions) by exact Hpp.
  run.
  match goal with
  | |- context [for_each put_positions _ ?s ?w'] =>
      destruct (collect_loop_run put_positions s w') as [l1 Hl1]
  end.
  rewrite Hl1. fold (collected parse_option_symbol put_positions).
  fold underlyings put_details.
  rewrite (match_nonempty underlyings) by exact Hne.
  unfold logged; simpl.
  rewrite Hsp. simpl. rewrite Hsnap. simpl.
  unfold evaluate_and_close. run.
  match goal with
  | |- context [for_each put_details ?f ?s ?w'] =>
      destruct (evaluate_loop_run stock_prices option_snapshots target_pct
                  put_details s w') as [l2 Hl2]
  end.
  rewrite Hl2. simpl. fold ds.
  match goal with
  | |- context [for_each ds ?f ?s ?w'] =>
      destruct (close_loop_run client ds s w') as (l3 & Hl3 & Hfail)
  end.
  rewrite Hl3. simpl.
  set (closed := omap closed_of (submissions client ds b3)).
  unfold cycle_calls.
  destruct closed as [| c cs].
  - eexists (_ :: l3 ++ l2 ++ l1 ++ [_]), _. split.
    + simpl. rewrite <- !app_assoc. reflexivity.
    + intros m Hm. apply elem_of_cons. right. apply elem_of_app. left.
      by apply Hfail.
  - destruct strat_logger; simpl.
    + eexists (_ :: l3 ++ l2 ++ l1 ++ [_]), _. split.
      * simpl. rewrite <- !app_assoc. reflexivity.
      * intros m Hm. apply elem_of_cons. right. apply elem_of_app. left.
        by apply Hfail.
    + eexists (_ :: l3 ++ l2 ++ l1 ++ [_]), _. split.
      * simpl. rewrite <- !app_assoc. reflexivity.
      * intros m Hm. apply elem_of_cons. right. apply elem_of_app. left.
        by apply Hfail.
Qed.

Lemma manage_open_puts_no_positions (client : BrokerClient) target_pct
    strat_logger (w : World) b1 positions :
  get_positions client (broker w) = (b1, inr positions) ->
  List.filter is_short_option positions = [] ->
  manage_open_puts parse_option_symbol client target_pct strat_logger w
  = (mkWorld b1 (call_get_positions :: calls w)
       ((INFO, NoOpenPutPositions) :: log w) (strat w),
     inr None).
Proof.
  intros Hpos Hnil.
  unfold manage_open_puts, invoke_raising, invoke.
  unfold bind at 1 2. rewrite Hpos. simpl. rewrite Hnil. reflexivity.
Qed.

Lemma manage_open_puts_no_valid_puts (client : BrokerClient) target_pct
    strat_logger (w : World) b1 positions :
  get_positions client (broker w) = (b1, inr positions) ->
  let put_positions := List.filter is_short_option positions in
  put_positions <> [] ->
  fst (collected parse_option_symbol put_positions) = [] ->
  exists l,
    manage_open_puts parse_option_symbol client target_pct strat_logger w
    = (mkWorld b1 (call_get_positions :: calls w)
         ((INFO, NoValidPutPositions) :: l ++ log w) (strat w),
       inr None).
Proof.
  intros Hpos put_positions Hpp Hnil.
  unfold manage_open_puts, invoke_raising, invoke.
  unfold bind at 1 2. rewrite Hpos. simpl.
  fold put_positions. rewrite (match_nonempty put_positions) by exact Hpp.
  run.
  match goal with
  | |- context [for_each put_positions _ ?s ?w'] =>
      destruct (collect_loop_run put_positions s w') as [l1 Hl1]
  end.
  rewrite Hl1. fold (collected parse_option_symbol put_positions).
  rewrite Hnil. unfold logged; simpl.
  eexists (l1 ++ [_]). rewrite <- app_assoc. reflexivity.
Qed.

Lemma manage_open_puts_stock_fetch_fails (client : BrokerClient) target_pct
    strat_logger (w : World) b1 positions b2 e :
  get_positions client (broker w) = (b1, inr positions) ->
  let put_positions := List.filter is_short_option positions in
  let underlyings := fst (collected parse_option_symbol put_positions) in
  underlyings <> [] ->
  get_stock_latest_trade client (list_to_set underlyings) b1 = (b2, inl e) ->
  exists l,
    manage_open_puts parse_option_symbol client target_pct strat_logger w
    = (mkWorld b2
         (call_get_stock_latest_trade (list_to_set underlyings)
          :: call_get_positions :: calls w)
         ((ERROR, FailedStockPrices e) :: l ++ log w) (strat w),
       inr None).
Proof.
  intros Hpos put_positions underlyings Hne Hsp.
  assert (Hpp : put_positions <> []).
  { intros Hnil. apply Hne. subst underlyings. by rewrite Hnil. }
  unfold manage_open_puts, invoke_raising, invoke.
  unfold bind at 1 2. rewrite Hpos. simpl.
  fold put_positions. rewrite (match_nonempty put_positions) by exact Hpp.
  run.
  match goal with
  | |- context [for_each put_positions _ ?s ?w'] =>
      destruct (collect_loop_run put_positions s w') as [l1 Hl1]
  end.
  rewrite Hl1. fold (collected parse_option_symbol put_positions).
  fold underlyings.
  rewrite (match_nonempty underlyings) by exact Hne.
  unfold logged; simpl. rewrite Hsp. simpl.
  eexists (l1 ++ [_]). rewrite <- app_assoc. reflexivity.
Qed.

Lemma manage_open_puts_snapshot_fetch_fails (client : BrokerClient)
    target_pct strat_logger (w : World) b1 positions b2 stock_prices b3 e :
  get_positions client (broker w) = (b1, inr positions) ->
  let put_positions := List.filter is_short_option positions in
  let underlyings := fst (collected parse_option_symbol put_positions) in
  let put_details := snd (collected parse_option_symbol put_positions) in
  underlyings <> [] ->
  get_stock_latest_trade client (list_to_set underlyings) b1
  = (b2, inr stock_prices) ->
  get_option_snapshot client (map fst put_details) b2 = (b3, inl e) ->
  exists l,
    manage_open_puts parse_option_symbol client target_pct strat_logger w
    = (mkWorld b3
         (call_get_option_snapshot (map fst put_details)
          :: call_get_stock_latest_trade (list_to_set underlyings)
          :: call_get_positions :: calls w)
         ((ERROR, FailedOptionSnapshots e) :: l ++ log w) (strat w),
       inr None).
Proof.
  intros Hpos put_positions underlyings put_details Hne Hsp Hsnap.
  assert (Hpp : put_positions <> []).
  { intros Hnil. apply Hne. subst underlyings. by rewrite Hnil. }
  unfold manage_open_puts, invoke_raising, invoke.
  unfold bind at 1 2. rewrite Hpos. simpl.
  fold put_positions. rewrite (match_nonempty put_positions) by exact Hpp.
  run.
  match goal with
  | |- context [for_each put_positions _ ?s ?w'] =>
      destruct (collect_loop_run put_positions s w') as [l1 Hl1]
  end.
  rewrite Hl1. fold (collected parse_option_symbol put_positions).
  fold underlyings put_details.
  rewrite (match_nonempty underlyings) by exact Hne.
  unfold logged; simpl. rewrite Hsp. simpl. rewrite Hsnap. simpl.
  eexists (l1 ++ [_]). rewrite <- app_assoc. reflexivity.
Qed.

Lemma submitted_orders_cons c cs :
  submitted_orders (c :: cs)
  = submitted_orders cs
    ++ match c with call_submit_order order => [order] | _ => [] end.
Proof.
  unfold submitted_orders. simpl. rewrite omap_app. f_equal.
  destruct c; reflexivity.
Qed.

Lemma submitted_orders_app cs cs' :
  submitted_orders (cs ++ cs') = submitted_orders cs' ++ submitted_orders cs.
Proof.
  unfold submitted_orders. by rewrite rev_app_distr, omap_app.
Qed.

Lemma submitted_orders_cycle_calls underlyings put_details
    (ds : list Decision) cs :
  submitted_orders (cycle_calls underlyings put_details ds cs)
  = submitted_orders cs ++ map (fun d => close_order (fst (fst d))) ds.
Proof.
  unfold cycle_calls.
  rewrite submitted_orders_app, !submitted_orders_cons, !app_nil_r.
  f_equal. unfold submitted_orders. rewrite rev_involutive.
  induction ds as [| d ds IH]; [reflexivity |].
  change (close_order (fst (fst d))
          :: omap (fun c => match c with
                            | call_submit_order order => Some order
                            | _ => None
                            end)
               (map (fun d => call_submit_order (close_order (fst (fst d))))
                  ds)
          = close_order (fst (fst d))
            :: map (fun d => close_order (fst (fst d))) ds).
  by rewrite IH.
Qed.

Lemma submissions_decisions (client : BrokerClient) ds :
  forall b, map fst (submissions client ds b) = ds.
Proof.
  induction ds as [| d ds IH]; intros b; simpl; [reflexivity |].
  destruct (submit_order client (close_order (fst (fst d))) b) as [b' r].
  simpl. by rewrite IH.
Qed.

Lemma closed_of_nonempty (subs : list (Decision * (E + OrderResponse.t))) :
  omap closed_of subs <> []
  <-> exists d order_response, (d, inr order_response) ∈ subs.
Proof.
  induction subs as [| [d r] subs IH]; simpl.
  - split; [congruence |]. intros (d & o & H). inversion H.
  - destruct r as [e | o]; unfold closed_of at 1; simpl.
    + rewrite IH. split.
      * intros (d' & o & H). exists d', o. by apply elem_of_cons; right.
      * intros (d' & o & H). apply elem_of_cons in H as [[= _ ?] | H];
          eauto.
    + split; [| discriminate]. intros _. exists d, o.
      apply elem_of_cons. by left.
Qed.

(** ** The outcomes of a monitoring cycle *)

(** Once [get_positions] has answered, manage_open_puts returns, and
    what it returns tells three cases apart: [None] exactly when there is
    nothing to evaluate (no short option position, no put surviving the
    parsing, or a bulk fetch that fails); otherwise the list of the records
    of the closing orders the broker accepted, which is empty when no
    position met the closure test and non-empty exactly when at least one
    closing order went through. *)
Theorem manage_open_puts_outcomes (client : BrokerClient) target_pct
    strat_logger (w : World) b1 positions :
  get_positions client (broker w) = (b1, inr positions) ->
  let put_positions := List.filter is_short_option positions in
  let underlyings := fst (collected parse_option_symbol put_positions) in
  let put_details := snd (collected parse_option_symbol put_positions) in
  exists v,
    snd (manage_open_puts parse_option_symbol client target_pct
           strat_logger w) = inr v
    /\ (v = None
        <-> nothing_to_evaluate parse_option_symbol client positions b1)
    /\ forall closed_positions,
         v = Some closed_positions ->
         exists b2 stock_prices b3 option_snapshots,
           get_stock_latest_trade client (list_to_set underlyings) b1
           = (b2, inr stock_prices)
           /\ get_option_snapshot client (map fst put_details) b2
              = (b3, inr option_snapshots)
           /\ let ds :=
                omap (closure_decision stock_prices option_snapshots
                        target_pct) put_details in
              closed_positions = omap closed_of (submissions client ds b3)
              /\ (ds = [] -> closed_positions = [])
              /\ (closed_positions <> []
                  <-> exists d order_response,
                        (d, inr order_response)
                        ∈ submissions client ds b3).
Proof.
  intros Hpos put_positions underlyings put_details.
  unfold nothing_to_evaluate.
  fold put_positions. fold underlyings. fold put_details.
  destruct (decide (put_positions = [])) as [Hpp | Hpp].
  { exists None.
    rewrite (manage_open_puts_no_positions client target_pct strat_logger
               w b1 positions Hpos Hpp).
    split; [reflexivity |]. split; [| discriminate]. tauto. }
  destruct (decide (underlyings = [])) as [Hus | Hus].
  { exists None.
    destruct (manage_open_puts_no_valid_puts client target_pct strat_logger
                w b1 positions Hpos Hpp Hus) as [l ->].
    split; [reflexivity |]. split; [| discriminate]. tauto. }
  destruct (get_stock_latest_trade client (list_to_set underlyings) b1)
    as [b2 [e | stock_prices]] eqn:Hsp.
  { exists None.
    destruct (manage_open_puts_stock_fetch_fails client target_pct
                strat_logger w b1 positions b2 e Hpos Hus Hsp) as [l ->].
    split; [reflexivity |]. split; [| discriminate].
    split; [| reflexivity]. intros _. right; right; left. by exists e. }
  simpl.
  destruct (get_option_snapshot client (map fst put_details) b2)
    as [b3 [e | option_snapshots]] eqn:Hsnap.
  { exists None.
    destruct (manage_open_puts_snapshot_fetch_fails client target_pct
                strat_logger w b1 positions b2 stock_prices b3 e
                Hpos Hus Hsp Hsnap) as [l ->].
    split; [reflexivity |]. split; [| discriminate].
    split; [| reflexivity]. intros _. right; right; right. by exists e. }
  destruct (manage_open_puts_evaluated client target_pct strat_logger w b1
              positions b2 stock_prices b3 option_snapshots
              Hpos Hus Hsp Hsnap) as (l & s & -> & _).
  eexists. split; [reflexivity |]. split.
  - split; [discriminate |].
    intros [H | [H | [[e H] | [e H]]]]; simpl in H; congruence.
  - intros closed [= <-].
    exists b2, stock_prices, b3, option_snapshots.
    split; [first [reflexivity | exact Hsp] |].
    split; [first [reflexivity | exact Hsnap] |].
    cbv zeta. split; [reflexivity |]. split.
    + intros Hds. unfold put_details, put_positions in Hds.
      by rewrite Hds.
    + apply closed_of_nonempty.
Qed.

(** C7. When the bulk stock-price fetch or the bulk option-snapshot fetch
    raises, manage_open_puts logs the error and returns [None]; the trace
    gains no [submit_order] call, the strategy logger receives nothing, and
    the broker is left in the state the failing fetch put it in. *)
Theorem fetch_failure_aborts_cycle (client : BrokerClient) target_pct
    strat_logger (w : World) b1 positions b2 r1 b3 r2 :
  get_positions client (broker w) = (b1, inr positions) ->
  let put_positions := List.filter is_short_option positions in
  let underlyings := fst (collected parse_option_symbol put_positions) in
  let put_details := snd (collected parse_option_symbol put_positions) in
  underlyings <> [] ->
  get_stock_latest_trade client (list_to_set underlyings) b1 = (b2, r1) ->
  get_option_snapshot client (map fst put_details) b2 = (b3, r2) ->
  (exists e, r1 = inl e) \/ (exists e, r2 = inl e) ->
  exists w',
    manage_open_puts parse_option_symbol client target_pct strat_logger w
    = (w', inr None)
    /\ submitted_orders (calls w') = submitted_orders (calls w)
    /\ strat w' = strat w
    /\ exists e,
         (r1 = inl e /\ broker w' = b2
          /\ hd_error (log w') = Some (ERROR, FailedStockPrices e))
         \/ (r2 = inl e /\ broker w' = b3
             /\ hd_error (log w') = Some (ERROR, FailedOptionSnapshots e)).
Proof.
  intros Hpos put_positions underlyings put_details Hus Hsp Hsnap Hfail.
  destruct r1 as [e1 | stock_prices].
  - destruct (manage_open_puts_stock_fetch_fails client target_pct
                strat_logger w b1 positions b2 e1 Hpos Hus Hsp) as [l ->].
    eexists. split; [reflexivity |]. simpl.
    split; [by rewrite !submitted_orders_cons, !app_nil_r |].
    split; [reflexivity |]. exists e1. left. done.
  - destruct Hfail as [[e He] | [e ->]]; [discriminate |].
    destruct (manage_open_puts_snapshot_fetch_fails client target_pct
                strat_logger w b1 positions b2 stock_prices b3 e
                Hpos Hus Hsp Hsnap) as [l ->].
    eexists. split; [reflexivity |]. simpl.
    split; [by rewrite !submitted_orders_cons, !app_nil_r |].
    split; [reflexivity |]. exists e. right. done.
Qed.

(** C8. In a cycle that reaches the submissions, every closure decision is
    submitted, in order, whatever became of the earlier ones; the list
    returned holds exactly the records of the submissions the broker
    accepted, each with the order id of the broker's answer, and each
    submission that raised is logged as an error for its position. *)
Theorem submission_failures_are_isolated (client : BrokerClient) target_pct
    strat_logger (w : World) b1 positions b2 stock_prices b3
    option_snapshots :
  get_positions client (broker w) = (b1, inr positions) ->
  let put_positions := List.filter is_short_option positions in
  let underlyings := fst (collected parse_option_symbol put_positions) in
  let put_details := snd (collected parse_option_symbol put_positions) in
  underlyings <> [] ->
  get_stock_latest_trade client (list_to_set underlyings) b1
  = (b2, inr stock_prices) ->
  get_option_snapshot client (map fst put_details) b2
  = (b3, inr option_snapshots) ->
  let ds :=
    omap (closure_decision stock_prices option_snapshots target_pct)
      put_details in
  let subs := submissions client ds b3 in
  exists w',
    manage_open_puts parse_option_symbol client target_pct strat_logger w
    = (w', inr (Some (omap closed_of subs)))
    /\ map fst subs = ds
    /\ submitted_orders (calls w')
       = submitted_orders (calls w)
         ++ map (fun d => close_order (fst (fst d))) ds
    /\ (forall d e,
          (d, inl e) ∈ subs ->
          closed_of (d, inl e) = None
          /\ (ERROR,
               FailedToClose
                 (Position.symbol (PutDetail.position (fst (fst d)))) e)
              ∈ log w')
    /\ (forall d order_response,
          (d, inr order_response) ∈ subs ->
          exists c,
            c ∈ omap closed_of subs
            /\ c = closed_record d order_response
            /\ ClosedPosition.order_id c = OrderResponse.id order_response).
Proof.
  intros Hpos put_positions underlyings put_details Hus Hsp Hsnap ds subs.
  destruct (manage_open_puts_evaluated client target_pct strat_logger w b1
              positions b2 stock_prices b3 option_snapshots
              Hpos Hus Hsp Hsnap) as (l & s & -> & Hlog).
  eexists. split; [reflexivity |]. simpl.
  split; [apply submissions_decisions |].
  split; [apply submitted_orders_cycle_calls |].
  split.
  - intros d e Hin. split; [reflexivity |].
    apply elem_of_app. left. apply Hlog.
    apply list_elem_of_omap. exists (d, inl e). split; [exact Hin |].
    reflexivity.
  - intros d o Hin. exists (closed_record d o).
    split; [| split; [reflexivity |]].
    + apply list_elem_of_omap. exists (d, inr o). by split.
    + by destruct d as [[? ?] ?].
Qed.

(** ** The closure test *)

Lemma Qle_bool_false (x y : Q) : Qle_bool x y = false <-> y < x.
Proof.
  split.
  - intros H. apply Qnot_le_lt. intros Hle.
    apply Qle_bool_iff in Hle. congruence.
  - intros H. destruct (Qle_bool x y) eqn:Hb; [| reflexivity].
    apply Qle_bool_iff in Hb. lra.
Qed.

Lemma Qabs_ge_iff (t x : Q) : t <= Qabs x <-> t <= x \/ x <= - t.
Proof.
  pattern (Qabs x). apply Qabs_case; intros Hx; split; intros H; lra.
Qed.

Lemma should_close_iff (pnl_pct target_pct : Q) :
  should_close pnl_pct target_pct = true <-> target_pct <= Qabs pnl_pct.
Proof. unfold should_close. apply Qle_bool_iff. Qed.

(** C2. For an entry of [put_details] that has a stock price and an option
    price, and a positive target, the second loop appends a decision exactly
    when [abs(pnl_pct) >= target_pct]; the decision carries
    [profit_target] exactly when [pnl_pct >= target_pct] and [loss_limit]
    exactly when [pnl_pct <= -target_pct]; below the target nothing is
    appended. The upper end of the range of the target plays no part. *)
Theorem closure_iff_target_reached stock_prices option_snapshots
    (target_pct : Q) (item : string * PutDetail.t) positions_to_close
    (w : World) current :
  0 < target_pct -> target_pct <= 1 ->
  evaluated_price stock_prices option_snapshots item = Some current ->
  let premium_collected := PutDetail.avg_entry_price (snd item) in
  let pnl_pct := pnl_percentage premium_collected current in
  let pnl := unrealized_pnl premium_collected current in
  exists added,
    snd (evaluate_position stock_prices option_snapshots target_pct item
           positions_to_close w)
    = inr (positions_to_close ++ added)
    /\ (added <> [] <-> target_pct <= Qabs pnl_pct)
    /\ (added = [(snd item, profit_target, pnl)] <-> target_pct <= pnl_pct)
    /\ (added = [(snd item, loss_limit, pnl)] <-> pnl_pct <= - target_pct)
    /\ (Qabs pnl_pct < target_pct -> added = []).
Proof.
  intros Hpos _ Hprice premium_collected pnl_pct pnl.
  destruct (evaluate_position_run stock_prices option_snapshots target_pct
              item positions_to_close w) as [l ->].
  eexists. split; [reflexivity |].
  unfold closure_decision. rewrite Hprice. cbv zeta.
  fold premium_collected. fold pnl_pct. fold pnl.
  destruct (should_close pnl_pct target_pct) eqn:Hclose.
  - apply should_close_iff in Hclose.
    destruct (Qle_bool target_pct pnl_pct) eqn:Hprofit; simpl.
    + apply Qle_bool_iff in Hprofit.
      split; [split; [done | congruence] |].
      split; [split; done |].
      split; [split; [discriminate | intros; lra] |].
      intros; lra.
    + apply Qle_bool_false in Hprofit.
      assert (Hloss : pnl_pct <= - target_pct).
      { apply Qabs_ge_iff in Hclose. lra. }
      split; [split; [done | congruence] |].
      split; [split; [discriminate | intros; lra] |].
      split; [split; done |].
      intros; lra.
  - apply Qle_bool_false in Hclose. simpl.
    assert (Hnot : ~ (target_pct <= pnl_pct \/ pnl_pct <= - target_pct)).
    { rewrite <- Qabs_ge_iff. lra. }
    split; [split; [congruence | intros; lra] |].
    split; [split; [discriminate | tauto] |].
    split; [split; [discriminate | tauto] |].
    done.
Qed.

(** ** The division guard *)

Lemma pnl_percentage_zero_premium (premium_collected current : Q) :
  premium_collected == 0 -> pnl_percentage premium_collected current = 0.
Proof.
  intros H. unfold pnl_percentage, Qlt_bool.
  assert (Hle : Qle_bool premium_collected 0 = true).
  { apply Qle_bool_iff. lra. }
  by rewrite Hle.
Qed.

Lemma closure_decision_zero_premium stock_prices option_snapshots
    (target_pct : Q) (item : string * PutDetail.t) :
  0 < target_pct ->
  PutDetail.avg_entry_price (snd item) == 0 ->
  closure_decision stock_prices option_snapshots target_pct item = None.
Proof.
  intros Hpos Hzero. unfold closure_decision.
  destruct (evaluated_price stock_prices option_snapshots item)
    as [current |]; [| reflexivity].
  cbv zeta. rewrite (pnl_percentage_zero_premium _ current Hzero).
  assert (Hc : should_close 0 target_pct = false).
  { unfold should_close. apply Qle_bool_false. simpl. exact Hpos. }
  by rewrite Hc.
Qed.

(** The details of a decision are those of the entry it was taken for. *)
Lemma closure_decision_details stock_prices option_snapshots target_pct
    item (d : Decision) :
  closure_decision stock_prices option_snapshots target_pct item = Some d ->
  fst (fst d) = snd item.
Proof.
  unfold closure_decision.
  destruct (evaluated_price stock_prices option_snapshots item)
    as [current |]; [| discriminate].
  cbv zeta. destruct (should_close _ target_pct); [| discriminate].
  by intros [= <-].
Qed.

(** No closing order of a cycle is for a position without premium: every
    decision of the second loop has a premium that is not zero. *)
Lemma decisions_have_premium stock_prices option_snapshots (target_pct : Q)
    (put_details : list (string * PutDetail.t)) (d : Decision) :
  0 < target_pct ->
  d ∈ omap (closure_decision stock_prices option_snapshots target_pct)
        put_details ->
  ~ PutDetail.avg_entry_price (fst (fst d)) == 0.
Proof.
  intros Hpos Hd Hzero.
  apply list_elem_of_omap in Hd as (item & _ & Hitem).
  pose proof (closure_decision_details _ _ _ _ _ Hitem) as Hdet.
  rewrite Hdet in Hzero.
  rewrite (closure_decision_zero_premium stock_prices option_snapshots
             target_pct item Hpos Hzero) in Hitem.
  discriminate.
Qed.

(** C6. For an entry whose premium collected is zero and a positive target,
    the P&L percentage is the literal 0 of the guarded branch, whatever the
    current option price, and the second loop leaves [positions_to_close]
    as it was, whatever the prices and snapshots: the position is not
    selected for closure. *)
Theorem zero_premium_never_closed stock_prices option_snapshots
    (target_pct : Q) (item : string * PutDetail.t) positions_to_close
    (w : World) :
  0 < target_pct -> target_pct <= 1 ->
  PutDetail.avg_entry_price (snd item) == 0 ->
  (forall current,
     pnl_percentage (PutDetail.avg_entry_price (snd item)) current = 0)
  /\ closure_decision stock_prices option_snapshots target_pct item = None
  /\ snd (evaluate_position stock_prices option_snapshots target_pct item
            positions_to_close w)
     = inr positions_to_close.
Proof.
  intros Hpos _ Hzero.
  pose proof (closure_decision_zero_premium stock_prices option_snapshots
                target_pct item Hpos Hzero) as Hnone.
  split; [intros current; by apply pnl_percentage_zero_premium |].
  split; [exact Hnone |].
  destruct (evaluate_position_run stock_prices option_snapshots target_pct
              item positions_to_close w) as [l ->].
  rewrite Hnone. simpl. by rewrite app_nil_r.
Qed.

(** ** The price of an option *)

Lemma current_option_price_mid bid_price ask_price latest_trade :
  truthy (Some bid_price) = true -> truthy (Some ask_price) = true ->
  current_option_price
    (Snapshot.mk (Some (Quote.mk (Some bid_price) (Some ask_price)))
       latest_trade)
  = Some ((bid_price + ask_price) / 2).
Proof.
  intros Hb Ha. unfold current_option_price. simpl in *.
  by rewrite Hb, Ha.
Qed.

Lemma current_option_price_ask_alone bid_price ask_price latest_trade :
  truthy bid_price = false -> truthy (Some ask_price) = true ->
  current_option_price
    (Snapshot.mk (Some (Quote.mk bid_price (Some ask_price))) latest_trade)
  = Some ask_price.
Proof.
  intros Hb Ha. unfold current_option_price. simpl in *.
  assert (Hz : Qeq_bool ask_price 0 = false)
    by (by destruct (Qeq_bool ask_price 0)).
  destruct bid_price as [bid_price |]; simpl in *; [rewrite Hb |];
    simpl; by rewrite Hz.
Qed.

Lemma current_option_price_trade latest_trade :
  current_option_price (Snapshot.mk None (Some latest_trade))
  = Some (Trade.price latest_trade).
Proof. reflexivity. Qed.

Lemma current_option_price_no_source :
  current_option_price (Snapshot.mk None None) = None.
Proof. reflexivity. Qed.

(** A quote without a usable ask prices the option at 0, whatever the latest
    trade. *)
Lemma current_option_price_no_ask bid_price ask_price latest_trade :
  truthy ask_price = false ->
  current_option_price
    (Snapshot.mk (Some (Quote.mk bid_price ask_price)) latest_trade)
  = Some 0.
Proof.
  intros Ha. unfold current_option_price. simpl.
  destruct ask_price as [ask_price |]; simpl in *.
  - assert (Hz : Qeq_bool ask_price 0 = true)
      by (by destruct (Qeq_bool ask_price 0)).
    destruct bid_price as [bid_price |]; simpl;
      rewrite ?Hz, ?andb_false_r; reflexivity.
  - by destruct bid_price.
Qed.

(** A position without any price source is skipped with a warning. *)
Lemma no_price_source_skipped stock_prices option_snapshots target_pct
    option_symbol details stock_trade positions_to_close (w : World) :
  stock_prices !! PutDetail.underlying details = Some stock_trade ->
  option_snapshots !! option_symbol = Some (Snapshot.mk None None) ->
  evaluate_position stock_prices option_snapshots target_pct
    (option_symbol, details) positions_to_close w
  = (logged [(WARNING, NoPriceDataAvailable option_symbol)] w,
     inr positions_to_close).
Proof.
  intros Hs Ho. unfold evaluate_position. by rewrite Hs, Ho.
Qed.

(** ** sell_puts *)

Context (filter_underlying : list string -> Q -> B -> B * (E + list string)).
Context (filter_options : list Contract.t -> option Q -> list Contract.t).
Context (score_options : list Contract.t -> list Q).
Context (select_options : list Contract.t -> list Q -> list Contract.t).
Context (from_contract_snapshot : OptionContract.t -> Snapshot.t -> Contract.t).
Context (from_contract : OptionContract.t -> B -> B * (E + Contract.t)).

Abbreviation sell_puts' :=
  (sell_puts filter_underlying filter_options score_options select_options
     from_contract_snapshot).
Abbreviation sell_calls' :=
  (sell_calls filter_options score_options from_contract).

Lemma sell_puts_guard_false (allowed_symbols : list string)
    (buying_power : Q) :
  allowed_symbols <> [] -> 0 < buying_power ->
  match allowed_symbols with [] => true | _ :: _ => false end
  || Qle_bool buying_power 0 = false.
Proof.
  intros Hne Hbp. destruct allowed_symbols; [done |]. simpl.
  apply Qle_bool_false. exact Hbp.
Qed.

(** Without a strategy logger the unguarded call of line 20 raises as soon
    as [filter_underlying] has returned, whatever it returned. *)
Lemma sell_puts_without_logger (client : BrokerClient) allowed_symbols
    buying_power (w : World) b1 filtered_symbols :
  allowed_symbols <> [] -> 0 < buying_power ->
  filter_underlying allowed_symbols buying_power (broker w)
  = (b1, inr filtered_symbols) ->
  sell_puts' client allowed_symbols buying_power None w
  = (mkWorld b1
       (call_filter_underlying allowed_symbols buying_power :: calls w)
       ((INFO, SearchingPuts) :: log w) (strat w),
     inl (AttributeError "set_filtered_symbols")).
Proof.
  intros Hne Hbp Hf. unfold sell_puts.
  rewrite sell_puts_guard_false by assumption.
  unfold invoke_raising, invoke. run. by rewrite Hf.
Qed.

(** X24. With a strategy logger the same call stops quietly when nothing is
    affordable: after [filter_underlying] no contract is fetched and nothing
    is sold, the strategy logger holds the empty list of filtered symbols
    and sell_puts returns. *)
Lemma sell_puts_nothing_affordable (client : BrokerClient) allowed_symbols
    buying_power strat_logger (w : World) b1 :
  allowed_symbols <> [] -> 0 < buying_power ->
  filter_underlying allowed_symbols buying_power (broker w) = (b1, inr []) ->
  sell_puts' client allowed_symbols buying_power (Some strat_logger) w
  = (mkWorld b1
       (call_filter_underlying allowed_symbols buying_power :: calls w)
       ((INFO, NoSymbolsWithBuyingPower) :: (INFO, SearchingPuts) :: log w)
       (set_filtered_symbols [] :: strat w),
     inr tt).
Proof.
  intros Hne Hbp Hf. unfold sell_puts.
  rewrite sell_puts_guard_false by assumption.
  unfold invoke_raising, invoke. run. by rewrite Hf.
Qed.

Lemma sold_symbols_cons c cs :
  sold_symbols (c :: cs)
  = sold_symbols cs
    ++ match c with call_market_sell symbol => [symbol] | _ => [] end.
Proof.
  unfold sold_symbols. simpl. rewrite omap_app. f_equal.
  destruct c; reflexivity.
Qed.

Lemma Qlt_bool_iff (x y : Q) : Qlt_bool x y = true <-> x < y.
Proof.
  unfold Qlt_bool. rewrite negb_true_iff. apply Qle_bool_false.
Qed.

Lemma Qlt_bool_false (x y : Q) : Qlt_bool x y = false <-> y <= x.
Proof.
  unfold Qlt_bool. rewrite negb_false_iff. apply Qle_bool_iff.
Qed.

(** Two prefixes of one list: the shorter is a prefix of the longer. *)
Lemma prefix_of_app_cases {A} (qs sold rest : list A) :
  qs `prefix_of` sold ++ rest ->
  qs `prefix_of` sold
  \/ exists p rest', rest = p :: rest' /\ sold ++ [p] `prefix_of` qs.
Proof.
  revert qs. induction sold as [| a sold IH]; intros qs Hpre; simpl in *.
  - destruct qs as [| q qs]; [left; apply prefix_nil |].
    destruct rest as [| p rest']; [by apply prefix_nil_not in Hpre |].
    right. exists p, rest'. split; [reflexivity |].
    apply prefix_cons_inv_1 in Hpre as ->. apply prefix_cons, prefix_nil.
  - destruct qs as [| q qs]; [left; apply prefix_nil |].
    pose proof (prefix_cons_inv_1 _ _ _ _ Hpre) as ->.
    apply prefix_cons_inv_2 in Hpre.
    destruct (IH qs Hpre) as [H | (p & rest' & -> & H)].
    + left. by apply prefix_cons.
    + right. exists p, rest'. split; [reflexivity |]. by apply prefix_cons.
Qed.

(** The running budget, one put at a time. *)
Lemma running_budget_cons buying_power p ps :
  running_budget buying_power (p :: ps)
  = running_budget (fsub buying_power (fmul 100 (Contract.strike p))) ps.
Proof. reflexivity. Qed.

Lemma affordable_nil buying_power : affordable buying_power [].
Proof. intros qs Hqs Hne. by apply prefix_nil_inv in Hqs. Qed.

Lemma affordable_cons buying_power p ps :
  0 <= fsub buying_power (fmul 100 (Contract.strike p)) ->
  affordable (fsub buying_power (fmul 100 (Contract.strike p))) ps ->
  affordable buying_power (p :: ps).
Proof.
  intros Hp Hps qs Hqs Hne. destruct qs as [| q qs]; [done |].
  pose proof (prefix_cons_inv_1 _ _ _ _ Hqs) as ->.
  apply prefix_cons_inv_2 in Hqs. rewrite running_budget_cons.
  destruct qs as [| q' qs']; [exact Hp |]. by apply Hps.
Qed.

(** The loop of lines 34-41 when [market_sell] does not raise: it sells a
    prefix of the selection along which the running budget stays at zero or
    above, and stops at the first put that takes it below zero. *)
Lemma sell_selected_run (client : BrokerClient) strat_logger selection :
  (forall symbol b, snd (market_sell client symbol b) = inr tt) ->
  forall buying_power (w : World),
  exists sold rest w',
    sell_selected client strat_logger selection buying_power w = (w', inr tt)
    /\ selection = sold ++ rest
    /\ sold_symbols (calls w')
       = sold_symbols (calls w) ++ map Contract.symbol sold
    /\ affordable buying_power sold
    /\ match rest with
       | [] => True
       | p :: _ => running_budget buying_power (sold ++ [p]) < 0
       end.
Proof.
  intros Hsell.
  induction selection as [| p rest IH]; intros bp w; simpl.
  - exists [], [], w. split; [reflexivity |]. split; [reflexivity |].
    split; [by rewrite app_nil_r |]. split; [apply affordable_nil | exact I].
  - destruct (Qlt_bool (fsub bp (fmul 100 (Contract.strike p))) 0) eqn:Hlt.
    + apply Qlt_bool_iff in Hlt.
      exists [], (p :: rest), w. split; [reflexivity |].
      split; [reflexivity |]. split; [by rewrite app_nil_r |].
      split; [apply affordable_nil | exact Hlt].
    + apply Qlt_bool_false in Hlt.
      unfold invoke_raising, invoke. run.
      pose proof (Hsell (Contract.symbol p) (broker w)) as Hr.
      destruct (market_sell client (Contract.symbol p) (broker w))
        as [b' r]. simpl in Hr. subst r. simpl.
      assert (Hstep : forall w0 : World,
                calls w0 = call_market_sell (Contract.symbol p) :: calls w ->
                exists sold rest0 w',
                  sell_selected client strat_logger rest
                    (fsub bp (fmul 100 (Contract.strike p))) w0
                  = (w', inr tt)
                  /\ p :: rest = sold ++ rest0
                  /\ sold_symbols (calls w')
                     = sold_symbols (calls w) ++ map Contract.symbol sold
                  /\ affordable bp sold
                  /\ match rest0 with
                     | [] => True
                     | c :: _ => running_budget bp (sold ++ [c]) < 0
                     end).
      { intros w0 Hcalls.
        destruct (IH (fsub bp (fmul 100 (Contract.strike p))) w0)
          as (sold & rest0 & w' & Hrun & Hsel & Hsold & Hafford & Hstop).
        exists (p :: sold), rest0, w'. split; [exact Hrun |].
        split; [by rewrite Hsel |].
        split.
        { rewrite Hsold, Hcalls, sold_symbols_cons, <- app_assoc.
          reflexivity. }
        split; [by apply affordable_cons |].
        destruct rest0 as [| c rest0]; [exact I |]. exact Hstop. }
      destruct strat_logger; simpl; apply Hstep; reflexivity.
Qed.

(** C5, amended. With a strategy logger and collaborators that answer,
    sell_puts sells, in the order of the selection, exactly the longest
    prefix of the selection along which the running budget of line 35 stays
    at zero or above: the budget is the one the code computes, each step the
    float subtraction of the float product of 100 and the strike. The first
    contract left out takes that budget below zero, no contract after it is
    sold, and no longer prefix of the selection is affordable. This holds
    whatever the float operations compute. The selection is what
    [select_options] returns, which the specification orders by descending
    score. *)
Theorem sell_puts_sells_affordable_prefix (client : BrokerClient)
    allowed_symbols buying_power strat_logger (w : World)
    b1 filtered_symbols b2 option_contracts b3 snapshots :
  allowed_symbols <> [] -> 0 < buying_power ->
  (forall symbol b, snd (market_sell client symbol b) = inr tt) ->
  filter_underlying allowed_symbols buying_power (broker w)
  = (b1, inr filtered_symbols) ->
  filtered_symbols <> [] ->
  get_options_contracts client filtered_symbols "put" b1
  = (b2, inr option_contracts) ->
  get_option_snapshot client (map OptionContract.symbol option_contracts) b2
  = (b3, inr snapshots) ->
  let put_options :=
    filter_options
      (contracts_with_snapshot from_contract_snapshot option_contracts
         snapshots) None in
  put_options <> [] ->
  let selection := select_options put_options (score_options put_options) in
  exists sold rest w',
    sell_puts' client allowed_symbols buying_power (Some strat_logger) w
    = (w', inr tt)
    /\ selection = sold ++ rest
    /\ sold_symbols (calls w')
       = sold_symbols (calls w) ++ map Contract.symbol sold
    /\ affordable buying_power sold
    /\ match rest with
       | [] => True
       | p :: _ => running_budget buying_power (sold ++ [p]) < 0
       end
    /\ forall qs,
         qs `prefix_of` selection -> affordable buying_power qs ->
         qs `prefix_of` sold.
Proof.
  intros Hne Hbp Hsell Hf Hfs Hoc Hsnap put_options Hpo selection.
  unfold sell_puts. rewrite sell_puts_guard_false by assumption.
  unfold invoke_raising, invoke. run. rewrite Hf. simpl.
  destruct filtered_symbols as [| s0 fs]; [done |]. simpl.
  rewrite Hoc. simpl. rewrite Hsnap. simpl.
  fold put_options.
  rewrite (match_nonempty put_options) by exact Hpo.
  simpl. fold selection.
  match goal with
  | |- context [sell_selected client ?sl selection buying_power ?w0] =>
      destruct (sell_selected_run client sl selection Hsell buying_power w0)
        as (sold & rest & w' & Hrun & Hsel & Hsold & Hafford & Hstop)
  end.
  exists sold, rest, w'. split; [exact Hrun |]. split; [exact Hsel |].
  split.
  { rewrite Hsold. simpl. by rewrite !sold_symbols_cons, !app_nil_r. }
  split; [exact Hafford |]. split; [exact Hstop |].
  intros qs Hqs Hq. rewrite Hsel in Hqs.
  destruct (prefix_of_app_cases qs sold rest Hqs)
    as [H | (p & rest' & -> & H)]; [exact H |].
  assert (Hne' : sold ++ [p] <> []) by (by destruct sold).
  destruct (Qlt_not_le _ _ Hstop (Hq _ H Hne')).
Qed.

(** With the exact operations the running budget is the buying power less
    the cumulative margin, and the affordable lists are those within the
    budget: there the amended statement is the one of the
    specification. *)
Lemma running_budget_exact buying_power ps :
  @running_budget exact_arithmetic buying_power ps
  == buying_power - cost ps.
Proof.
  revert buying_power.
  induction ps as [| p ps IH]; intros bp.
  - unfold running_budget. simpl. lra.
  - change (@running_budget exact_arithmetic bp (p :: ps))
      with (@running_budget exact_arithmetic
              (bp - 100 * Contract.strike p) ps).
    rewrite IH. simpl. lra.
Qed.

Lemma affordable_exact buying_power ps :
  0 <= buying_power ->
  @affordable exact_arithmetic buying_power ps
  <-> within_budget buying_power ps.
Proof.
  intros Hbp. split.
  - intros H qs Hqs. destruct qs as [| q qs]; [exact Hbp |].
    specialize (H (q :: qs) Hqs).
    rewrite running_budget_exact in H. specialize (H ltac:(done)). lra.
  - intros H qs Hqs _. rewrite running_budget_exact.
    specialize (H qs Hqs). lra.
Qed.

Lemma within_budget_from_sound buying_power ps : forall spent,
  within_budget_from spent buying_power ps = true ->
  forall qs, qs `prefix_of` ps -> spent + cost qs <= buying_power.
Proof.
  induction ps as [| p ps IH]; intros spent Hcheck qs Hqs; simpl in Hcheck;
    apply andb_true_iff in Hcheck as [Hspent Hrest];
    apply Qle_bool_iff in Hspent.
  - apply prefix_nil_inv in Hqs as ->. simpl. lra.
  - destruct qs as [| q qs]; [simpl; lra |].
    pose proof (prefix_cons_inv_1 _ _ _ _ Hqs) as ->.
    apply prefix_cons_inv_2 in Hqs.
    specialize (IH _ Hrest qs Hqs). simpl. lra.
Qed.

Lemma within_budget_check buying_power ps :
  within_budget_from 0 buying_power ps = true ->
  within_budget buying_power ps.
Proof.
  intros Hcheck qs Hqs.
  pose proof (within_budget_from_sound _ _ _ Hcheck qs Hqs). lra.
Qed.

(** ** sell_calls *)

Lemma passes_check_ret {A} (a : A) : passes_check (B:=B) (E:=E) (ret a).
Proof. intros w s q. discriminate. Qed.

Lemma passes_check_bind {A C} (m : @M B E A) (k : A -> @M B E C) :
  passes_check m -> (forall a, passes_check (k a)) ->
  passes_check (bind m k).
Proof.
  intros Hm Hk w s q. unfold bind.
  specialize (Hm w s q). destruct (m w) as [w' [e | a]]; simpl in *.
  - congruence.
  - apply Hk.
Qed.

Lemma passes_check_logger lvl m :
  passes_check (B:=B) (E:=E) (logger lvl m).
Proof. intros w s q. discriminate. Qed.

Lemma passes_check_strat_if strat_logger attr r :
  passes_check (B:=B) (E:=E) (strat_if strat_logger attr r).
Proof. intros w s q. destruct strat_logger; discriminate. Qed.

Lemma passes_check_invoke_raising {A} c (f : B -> B * (E + A)) :
  passes_check (invoke_raising c f).
Proof.
  intros w s q. unfold invoke_raising, invoke, bind.
  destruct (f (broker w)) as [b' [e | a]]; discriminate.
Qed.

Lemma passes_check_for_each {X S} (xs : list X)
    (body : X -> S -> @M B E S) :
  (forall x s, passes_check (body x s)) ->
  forall s, passes_check (for_each xs body s).
Proof.
  intros Hbody. induction xs as [| x xs IH]; intros s; simpl.
  - apply passes_check_ret.
  - apply passes_check_bind; [apply Hbody | apply IH].
Qed.

Lemma sell_best_call_passes_check (client : BrokerClient) symbol
    purchase_price strat_logger :
  passes_check
    (sell_best_call filter_options score_options from_contract client symbol
       purchase_price strat_logger).
Proof.
  unfold sell_best_call, from_contracts.
  apply passes_check_bind; [apply passes_check_logger | intros _].
  apply passes_check_bind; [apply passes_check_invoke_raising | intros ocs].
  apply passes_check_bind.
  { apply passes_check_for_each. intros x acc. unfold from_contract_step.
    apply passes_check_bind; [apply passes_check_invoke_raising |].
    intros c. apply passes_check_ret. }
  intros contracts.
  apply passes_check_bind; [apply passes_check_strat_if | intros _].
  unfold sell_top_call.
  destruct (filter_options contracts (Some purchase_price)) as [| c0 cs].
  { apply passes_check_logger. }
  destruct (argmax _) as [i |]; [| intros w s q; discriminate].
  destruct (_ !! i) as [contract |]; [| intros w s q; discriminate].
  apply passes_check_bind; [apply passes_check_logger | intros _].
  apply passes_check_bind; [apply passes_check_invoke_raising | intros _].
  apply passes_check_strat_if.
Qed.

(** C9. With fewer than 100 shares sell_calls logs the error and raises
    the insufficient-shares error at once: the broker state, the trace of
    calls and the strategy logger are as they were, so no gateway call was
    made. With 100 shares or more that error is never raised. *)
Theorem sell_calls_round_lot_check (client : BrokerClient) symbol
    purchase_price (stock_qty : Z) strat_logger (w : World) :
  ((stock_qty < 100)%Z ->
   sell_calls' client symbol purchase_price stock_qty strat_logger w
   = (mkWorld (broker w) (calls w)
        ((ERROR, NotEnoughShares symbol stock_qty) :: log w) (strat w),
      inl (InsufficientShares symbol stock_qty)))
  /\ ((100 <= stock_qty)%Z ->
      forall symbol' stock_qty',
        snd (sell_calls' client symbol purchase_price stock_qty
               strat_logger w)
        <> inl (InsufficientShares symbol' stock_qty')).
Proof.
  unfold sell_calls. split; intros Hqty.
  - apply Z.ltb_lt in Hqty. rewrite Hqty. reflexivity.
  - apply Z.ltb_ge in Hqty. rewrite Hqty.
    intros s q. apply sell_best_call_passes_check.
Qed.

(** [np.argmax] returns the first index of the greatest score. *)
Lemma argmax_from_first_max rest : forall pre best best_score,
  pre !! best = Some best_score ->
  (forall j s_j, pre !! j = Some s_j ->
     s_j <= best_score /\ ((j < best)%nat -> s_j < best_score)) ->
  first_max (pre ++ rest) (argmax_from rest (length pre) best best_score).
Proof.
  induction rest as [| s rest IH]; intros pre best bs Hbest Hmax; simpl.
  - rewrite app_nil_r. exists bs. split; assumption.
  - assert (Hlt : (best < length pre)%nat)
      by (eapply lookup_lt_Some; eassumption).
    replace (pre ++ s :: rest) with ((pre ++ [s]) ++ rest)
      by (by rewrite <- app_assoc).
    replace (S (length pre)) with (length (pre ++ [s]))
      by (rewrite length_app; simpl; lia).
    destruct (Qlt_bool bs s) eqn:Hcmp.
    + apply Qlt_bool_iff in Hcmp.
      apply IH.
      * by rewrite lookup_app_r, Nat.sub_diag.
      * intros j s_j Hj.
        destruct (decide (j < length pre)%nat) as [Hjl | Hjl].
        -- rewrite lookup_app_l in Hj by exact Hjl.
           destruct (Hmax j s_j Hj) as [Hle _]. split; intros; lra.
        -- rewrite lookup_app_r in Hj by lia.
           destruct (j - length pre)%nat as [| n] eqn:Hd;
             simpl in Hj; [| done].
           injection Hj as <-. split; [lra | lia].
    + apply Qlt_bool_false in Hcmp.
      apply IH.
      * by rewrite lookup_app_l.
      * intros j s_j Hj.
        destruct (decide (j < length pre)%nat) as [Hjl | Hjl].
        -- rewrite lookup_app_l in Hj by exact Hjl. by apply Hmax.
        -- rewrite lookup_app_r in Hj by lia.
           destruct (j - length pre)%nat as [| n] eqn:Hd;
             simpl in Hj; [| done].
           injection Hj as <-. split; [lra | lia].
Qed.

Example argmax_tie : argmax [1; 3; 3; 2] = Some 1%nat.
Proof. reflexivity. Qed.

Lemma argmax_first_max scores i :
  argmax scores = Some i -> first_max scores i.
Proof.
  destruct scores as [| s rest]; [discriminate |]. simpl.
  intros [= <-].
  apply (argmax_from_first_max rest [s] 0%nat s); [reflexivity |].
  intros [| j] s_j Hj; simpl in Hj; [| done].
  injection Hj as <-. split; [lra | lia].
Qed.

Lemma from_contracts_sold_symbols options : forall acc (w : World),
  sold_symbols
    (calls (fst (for_each options (from_contract_step from_contract)
                   acc w)))
  = sold_symbols (calls w).
Proof.
  induction options as [| o options IH]; intros acc w; simpl;
    [reflexivity |].
  unfold from_contract_step, invoke_raising, invoke. run.
  destruct (from_contract o (broker w)) as [b' [e | c]]; simpl.
  - by rewrite sold_symbols_cons, app_nil_r.
  - rewrite IH. simpl. by rewrite sold_symbols_cons, app_nil_r.
Qed.

Lemma sell_top_call_sold (client : BrokerClient) symbol strat_logger
    call_options i contract (w : World) :
  call_options <> [] ->
  argmax (score_options call_options) = Some i ->
  call_options !! i = Some contract ->
  sold_symbols
    (calls (fst (sell_top_call score_options client symbol strat_logger
                   call_options w)))
  = sold_symbols (calls w) ++ [Contract.symbol contract].
Proof.
  intros Hne Hi Hc. unfold sell_top_call.
  rewrite (match_nonempty call_options) by exact Hne.
  cbv zeta. rewrite Hi, Hc. unfold invoke_raising, invoke. run.
  destruct (market_sell client (Contract.symbol contract) (broker w))
    as [b' [e | []]]; simpl.
  - by rewrite sold_symbols_cons.
  - destruct strat_logger; simpl; by rewrite sold_symbols_cons.
Qed.

(** C10. When the round-lot check passes, the contracts are built and at
    least one call qualifies, with one score per qualifying call, sell_calls
    submits exactly one [market_sell]: for the contract at the first index
    at which the scores are greatest, every earlier score being strictly
    smaller and no score greater. The contract is therefore determined by
    the order of the filtered list and the scores. *)
Theorem sell_calls_sells_first_best (client : BrokerClient) symbol
    purchase_price (stock_qty : Z) strat_logger (w : World)
    b1 option_contracts w2 contracts :
  (100 <= stock_qty)%Z ->
  get_options_contracts client [symbol] "call" (broker w)
  = (b1, inr option_contracts) ->
  from_contracts from_contract option_contracts
    (mkWorld b1 (call_get_options_contracts [symbol] "call" :: calls w)
       ((INFO, SearchingCalls symbol) :: log w) (strat w))
  = (w2, inr contracts) ->
  let call_options := filter_options contracts (Some purchase_price) in
  let scores := score_options call_options in
  call_options <> [] ->
  length scores = length call_options ->
  exists i contract,
    first_max scores i
    /\ call_options !! i = Some contract
    /\ sold_symbols
         (calls (fst (sell_calls' client symbol purchase_price stock_qty
                        strat_logger w)))
       = sold_symbols (calls w) ++ [Contract.symbol contract].
Proof.
  intros Hqty Hoc Hfc call_options scores Hne Hlen.
  assert (Hw2 : sold_symbols (calls w2) = sold_symbols (calls w)).
  { pose proof (from_contracts_sold_symbols option_contracts []
                  (mkWorld b1
                     (call_get_options_contracts [symbol] "call" :: calls w)
                     ((INFO, SearchingCalls symbol) :: log w) (strat w)))
      as H.
    unfold from_contracts in Hfc. rewrite Hfc in H. simpl in H.
    by rewrite H, sold_symbols_cons, app_nil_r. }
  destruct (argmax scores) as [i |] eqn:Hi.
  2: { destruct scores; [| discriminate].
       destruct call_options; [done | discriminate]. }
  pose proof (argmax_first_max scores i Hi) as Hmax.
  destruct (call_options !! i) as [contract |] eqn:Hc.
  2: { destruct Hmax as (s_i & Hs & _). apply lookup_lt_Some in Hs.
       apply lookup_ge_None in Hc. lia. }
  exists i, contract. split; [exact Hmax |]. split; [exact Hc |].
  unfold sell_calls. apply Z.ltb_ge in Hqty. rewrite Hqty.
  unfold sell_best_call, invoke_raising, invoke. run.
  rewrite Hoc. simpl. rewrite Hfc. simpl.
  fold call_options.
  destruct strat_logger; simpl;
    rewrite (sell_top_call_sold client symbol _ call_options i contract)
      by assumption; simpl; exact Hw2 || by rewrite Hw2.
Qed.

(** ** What each function calls *)

Lemma emits_ret {A} P (a : A) : emits (B:=B) (E:=E) P (ret a).
Proof. intros w. exists []. split; [reflexivity | constructor]. Qed.

Lemma emits_raise {A} P e : emits (B:=B) (E:=E) (A:=A) P (raise e).
Proof. intros w. exists []. split; [reflexivity | constructor]. Qed.

Lemma emits_logger P lvl m : emits (B:=B) (E:=E) P (logger lvl m).
Proof. intros w. exists []. split; [reflexivity | constructor]. Qed.

Lemma emits_strat_call P strat_logger attr r :
  emits (B:=B) (E:=E) P (strat_call strat_logger attr r).
Proof.
  intros w. exists []. split; [| constructor].
  by destruct strat_logger.
Qed.

Lemma emits_strat_if P strat_logger attr r :
  emits (B:=B) (E:=E) P (strat_if strat_logger attr r).
Proof.
  intros w. exists []. split; [| constructor].
  by destruct strat_logger.
Qed.

Lemma emits_bind {A C} P (m : @M B E A) (k : A -> @M B E C) :
  emits P m -> (forall a, emits P (k a)) -> emits P (bind m k).
Proof.
  intros Hm Hk w. unfold bind.
  destruct (Hm w) as (l & Hl & HP).
  destruct (m w) as [w' [e | a]]; simpl in *.
  - by exists l.
  - destruct (Hk a w') as (l' & Hl' & HP').
    exists (l' ++ l). split.
    + by rewrite Hl', Hl, app_assoc.
    + by apply Forall_app.
Qed.

Lemma emits_invoke {A} (P : Call -> Prop) c (f : B -> B * (E + A)) :
  P c -> emits P (invoke c f).
Proof.
  intros Hc w. unfold invoke. destruct (f (broker w)) as [b' r]. simpl.
  exists [c]. split; [reflexivity |]. by constructor.
Qed.

Lemma emits_invoke_raising {A} (P : Call -> Prop) c
    (f : B -> B * (E + A)) :
  P c -> emits P (invoke_raising c f).
Proof.
  intros Hc. unfold invoke_raising.
  apply emits_bind; [by apply emits_invoke |].
  intros [e | a]; [apply emits_raise | apply emits_ret].
Qed.

Lemma emits_for_each {X S} P (xs : list X) (body : X -> S -> @M B E S) :
  (forall x s, x ∈ xs -> emits P (body x s)) ->
  forall s, emits P (for_each xs body s).
Proof.
  induction xs as [| x xs IH]; intros Hbody s; simpl.
  - apply emits_ret.
  - apply emits_bind.
    + apply Hbody. by left.
    + intros s'. apply IH. intros x' s'' Hx'. apply Hbody. by right.
Qed.

Lemma emits_sell_selected (client : BrokerClient) strat_logger selection :
  forall buying_power,
    emits put_selling_call
      (sell_selected client strat_logger selection buying_power).
Proof.
  induction selection as [| p rest IH]; intros bp; simpl.
  - apply emits_ret.
  - destruct (Qlt_bool _ 0); [apply emits_ret |].
    apply emits_bind; [apply emits_logger | intros _].
    apply emits_bind; [by apply emits_invoke_raising | intros _].
    apply emits_bind; [apply emits_strat_if | intros _].
    apply IH.
Qed.

(** X1. Whatever the client, the pipeline and the logger, a put-selling pass
    only calls [filter_underlying], [get_options_contracts] for puts,
    [get_option_snapshot] and [market_sell]: it never reads the positions
    and never submits a closing order. *)
Theorem sell_puts_calls (client : BrokerClient) allowed_symbols buying_power
    strat_logger :
  emits put_selling_call
    (sell_puts' client allowed_symbols buying_power strat_logger).
Proof.
  unfold sell_puts.
  destruct (_ || _); [apply emits_ret |].
  apply emits_bind; [apply emits_logger | intros _].
  apply emits_bind; [by apply emits_invoke_raising | intros fs].
  apply emits_bind; [apply emits_strat_call | intros _].
  destruct (_ =? _)%nat.
  { apply emits_bind; [apply emits_logger | intros _]. apply emits_ret. }
  apply emits_bind; [by apply emits_invoke_raising | intros ocs].
  apply emits_bind; [by apply emits_invoke_raising | intros snaps].
  apply emits_bind; [apply emits_strat_if | intros _].
  destruct (filter_options _ None); [apply emits_logger |].
  apply emits_bind; [apply emits_logger | intros _].
  apply emits_sell_selected.
Qed.

Lemma emits_sell_top_call (client : BrokerClient) symbol strat_logger
    call_options :
  emits (call_selling_call symbol)
    (sell_top_call score_options client symbol strat_logger call_options).
Proof.
  unfold sell_top_call.
  destruct call_options as [| c0 cs]; [apply emits_logger |].
  cbv zeta. destruct (argmax _) as [i |]; [| apply emits_raise].
  destruct (_ !! i) as [contract |]; [| apply emits_raise].
  apply emits_bind; [apply emits_logger | intros _].
  apply emits_bind; [by apply emits_invoke_raising | intros _].
  apply emits_strat_if.
Qed.

(** X2. Whatever the client, the pipeline and the share count, a
    covered-call sale only calls [get_options_contracts] for the calls of
    its one symbol, [Contract.from_contract] and [market_sell]: it never
    reads the positions and never submits a closing order. *)
Theorem sell_calls_calls (client : BrokerClient) symbol purchase_price
    stock_qty strat_logger :
  emits (call_selling_call symbol)
    (sell_calls' client symbol purchase_price stock_qty strat_logger).
Proof.
  unfold sell_calls.
  destruct (_ <? _)%Z.
  { apply emits_bind; [apply emits_logger | intros _]. apply emits_raise. }
  unfold sell_best_call, from_contracts.
  apply emits_bind; [apply emits_logger | intros _].
  apply emits_bind; [by apply emits_invoke_raising | intros ocs].
  apply emits_bind.
  { apply emits_for_each. intros o acc _. unfold from_contract_step.
    apply emits_bind; [by apply emits_invoke_raising | intros c].
    apply emits_ret. }
  intros contracts.
  apply emits_bind; [apply emits_strat_if | intros _].
  apply emits_sell_top_call.
Qed.

(** X3. Whatever the client and the positions, a monitoring cycle only
    calls [get_positions], [get_stock_latest_trade], [get_option_snapshot]
    and [submit_order], and every order it submits is a market buy for the
    day: it never sells. *)
Theorem manage_open_puts_calls (client : BrokerClient) target_pct
    strat_logger :
  emits monitor_call
    (manage_open_puts parse_option_symbol client target_pct strat_logger).
Proof.
  unfold manage_open_puts.
  apply emits_bind; [by apply emits_invoke_raising | intros positions].
  destruct (List.filter is_short_option positions) as [| p0 ps] eqn:Hpp.
  { apply emits_bind; [apply emits_logger | intros _]. apply emits_ret. }
  apply emits_bind; [apply emits_logger | intros _].
  apply emits_bind.
  { apply emits_for_each. intros p [us pd] _. unfold collect_put.
    destruct (parse_option_symbol _) as [e | [[u ty] k]].
    - apply emits_bind; [apply emits_logger | intros _]. apply emits_ret.
    - destruct (String.eqb ty "P"); apply emits_ret. }
  intros [underlyings put_details]. simpl.
  destruct underlyings as [| u0 us].
  { apply emits_bind; [apply emits_logger | intros _]. apply emits_ret. }
  apply emits_bind; [by apply emits_invoke | intros [e | stock_prices]].
  { apply emits_bind; [apply emits_logger | intros _]. apply emits_ret. }
  apply emits_bind; [by apply emits_invoke | intros [e | snapshots]].
  { apply emits_bind; [apply emits_logger | intros _]. apply emits_ret. }
  unfold evaluate_and_close.
  apply emits_bind.
  { apply emits_for_each. intros [option_symbol details] ptc _.
    unfold evaluate_position.
    destruct (stock_prices !! _).
    2: { apply emits_bind; [apply emits_logger | intros _].
         apply emits_ret. }
    destruct (snapshots !! _) as [snapshot |].
    2: { apply emits_bind; [apply emits_logger | intros _].
         apply emits_ret. }
    destruct (current_option_price snapshot).
    2: { apply emits_bind; [apply emits_logger | intros _].
         apply emits_ret. }
    cbv zeta.
    apply emits_bind; [apply emits_logger | intros _].
    destruct (should_close _ _); [| apply emits_ret].
    destruct (Qle_bool _ _);
      (apply emits_bind; [apply emits_logger | intros _]; apply emits_ret). }
  intros positions_to_close.
  apply emits_bind.
  { apply emits_for_each. intros [[details reason] pnl] closed _.
    unfold close_position.
    apply emits_bind; [apply emits_logger | intros _].
    apply emits_bind; [by apply emits_invoke | intros [e | response]].
    - apply emits_bind; [apply emits_logger | intros _]. apply emits_ret.
    - apply emits_bind; [apply emits_logger | intros _]. apply emits_ret. }
  intros closed.
  apply emits_bind.
  { destruct closed; [apply emits_ret | apply emits_strat_if]. }
  intros _.
  apply emits_bind; [apply emits_logger | intros _]. apply emits_ret.
Qed.

(** ** sell_puts: the guard and the budget *)

Lemma Forall_not_sold l cs :
  Forall (fun c => forall symbol, c <> call_market_sell symbol) l ->
  sold_symbols (l ++ cs) = sold_symbols cs.
Proof.
  induction l as [| c l IH]; intros Hl; [reflexivity |].
  inversion Hl as [| ? ? Hc Hl']; subst. simpl.
  rewrite sold_symbols_cons, IH by exact Hl'.
  destruct c; try by rewrite app_nil_r.
  by destruct (Hc symbol).
Qed.

Lemma emits_for_all_calls {A} (P : Call -> Prop) (m : @M B E A) :
  emits P m -> emits (fun _ => True) m.
Proof.
  intros Hm w. destruct (Hm w) as (l & Hl & _). exists l.
  split; [exact Hl |]. by apply Forall_forall.
Qed.

(** Once past the guard, the first call of sell_puts is [filter_underlying]
    on all the symbols and the whole budget. *)
Lemma sell_puts_started (client : BrokerClient) allowed_symbols buying_power
    strat_logger (w : World) :
  allowed_symbols <> [] -> 0 < buying_power ->
  exists l,
    calls (fst (sell_puts' client allowed_symbols buying_power strat_logger
                  w))
    = l ++ call_filter_underlying allowed_symbols buying_power :: calls w.
Proof.
  intros Hne Hbp. unfold sell_puts.
  rewrite sell_puts_guard_false by assumption.
  unfold invoke_raising, invoke. unfold bind at 1 2 3.
  unfold logger_info at 1. unfold logger at 1. simpl.
  destruct (filter_underlying allowed_symbols buying_power (broker w))
    as [b1 [e | fs]]; simpl.
  { by exists []. }
  match goal with
  | |- context [bind ?m ?k ?w1] =>
      assert (Hrest : emits (fun _ => True) (bind m k))
  end.
  { apply emits_bind; [apply emits_strat_call | intros _].
    destruct (_ =? _)%nat.
    { apply emits_bind; [apply emits_logger | intros _]. apply emits_ret. }
    apply emits_bind; [by apply emits_invoke_raising | intros ocs].
    apply emits_bind; [by apply emits_invoke_raising | intros snaps].
    apply emits_bind; [apply emits_strat_if | intros _].
    destruct (filter_options _ None); [apply emits_logger |].
    apply emits_bind; [apply emits_logger | intros _].
    eapply emits_for_all_calls, emits_sell_selected. }
  match goal with
  | |- context [bind ?m ?k ?w1] => destruct (Hrest w1) as (l & Hl & _)
  end.
  exists l. exact Hl.
Qed.

(** X4. sell_puts is a no-op exactly when there is no allowed symbol or no
    positive buying power: it then returns without a call, a log record or a
    use of the strategy logger (so also without one); in every other case it
    leaves a longer trace. *)
Theorem sell_puts_noop_iff (client : BrokerClient) allowed_symbols
    buying_power strat_logger (w : World) :
  sell_puts' client allowed_symbols buying_power strat_logger w = (w, inr tt)
  <-> allowed_symbols = [] \/ buying_power <= 0.
Proof.
  split.
  - intros Hrun.
    destruct (decide (allowed_symbols = [])) as [| Hne]; [by left |].
    right. apply Qnot_lt_le. intros Hbp.
    destruct (sell_puts_started client allowed_symbols buying_power
                strat_logger w Hne Hbp) as [l Hl].
    rewrite Hrun in Hl. simpl in Hl.
    apply (f_equal length) in Hl. rewrite length_app in Hl. simpl in Hl.
    lia.
  - intros Hguard. unfold sell_puts.
    assert (Hg : match allowed_symbols with [] => true | _ :: _ => false end
                 || Qle_bool buying_power 0 = true).
    { destruct Hguard as [-> | Hbp]; [reflexivity |].
      apply orb_true_iff. right. by apply Qle_bool_iff. }
    by rewrite Hg.
Qed.

(** The loop of lines 34-41 for any client: the sales it attempts are those
    of a prefix of the selection along which the running budget stays at
    zero or above, and the only exception that leaves it is one of
    [market_sell]. *)
Lemma sell_selected_attempts (client : BrokerClient) strat_logger selection :
  forall buying_power (w : World),
  exists attempted rest,
    selection = attempted ++ rest
    /\ sold_symbols
         (calls (fst (sell_selected client strat_logger selection
                        buying_power w)))
       = sold_symbols (calls w) ++ map Contract.symbol attempted
    /\ affordable buying_power attempted
    /\ forall x,
         snd (sell_selected client strat_logger selection buying_power w)
         = inl x ->
         exists e, x = Raised e.
Proof.
  induction selection as [| p rest IH]; intros bp w; simpl.
  - exists [], []. split; [reflexivity |]. split; [by rewrite app_nil_r |].
    split; [apply affordable_nil | discriminate].
  - destruct (Qlt_bool (fsub bp (fmul 100 (Contract.strike p))) 0) eqn:Hlt.
    + exists [], (p :: rest). split; [reflexivity |].
      split; [by rewrite app_nil_r |].
      split; [apply affordable_nil | discriminate].
    + apply Qlt_bool_false in Hlt.
      unfold invoke_raising, invoke. run.
      destruct (market_sell client (Contract.symbol p) (broker w))
        as [b' [e | []]]; simpl.
      * exists [p], rest. split; [reflexivity |].
        split; [by rewrite sold_symbols_cons |].
        split; [apply affordable_cons; [exact Hlt | apply affordable_nil] |].
        intros x [= <-]. by exists e.
      * assert (Hstep : forall w0 : World,
                  calls w0 = call_market_sell (Contract.symbol p) :: calls w ->
                  exists attempted rest0,
                    p :: rest = attempted ++ rest0
                    /\ sold_symbols
                         (calls (fst (sell_selected client strat_logger rest
                                        (fsub bp
                                           (fmul 100 (Contract.strike p)))
                                        w0)))
                       = sold_symbols (calls w)
                         ++ map Contract.symbol attempted
                    /\ affordable bp attempted
                    /\ forall x,
                         snd (sell_selected client strat_logger rest
                                (fsub bp (fmul 100 (Contract.strike p))) w0)
                         = inl x ->
                         exists e, x = Raised e).
        { intros w0 Hcalls.
          destruct (IH (fsub bp (fmul 100 (Contract.strike p))) w0)
            as (attempted & rest0 & Hsel & Hsold & Hafford & Hexn).
          exists (p :: attempted), rest0. split; [by rewrite Hsel |].
          split.
          { rewrite Hsold, Hcalls, sold_symbols_cons, <- app_assoc.
            reflexivity. }
          split; [by apply affordable_cons | exact Hexn]. }
        destruct strat_logger; simpl; apply Hstep; reflexivity.
Qed.

(** X5. Whatever the client and the pipeline answer or raise, sell_puts
    either attempts no sale, or it has positive buying power, the pipeline
    and the two fetches answered, and the sales it attempts are, in order,
    those of a prefix of the selection (what [select_options] returns on the
    contracts fetched) along which the running budget of line 35 stays at
    zero or above. *)
Theorem sell_puts_never_exceeds_budget (client : BrokerClient)
    allowed_symbols buying_power strat_logger (w : World) :
  let w' :=
    fst (sell_puts' client allowed_symbols buying_power strat_logger w) in
  sold_symbols (calls w') = sold_symbols (calls w)
  \/ exists b1 filtered_symbols b2 option_contracts b3 snapshots attempted,
       0 < buying_power
       /\ filter_underlying allowed_symbols buying_power (broker w)
          = (b1, inr filtered_symbols)
       /\ get_options_contracts client filtered_symbols "put" b1
          = (b2, inr option_contracts)
       /\ get_option_snapshot client
            (map OptionContract.symbol option_contracts) b2
          = (b3, inr snapshots)
       /\ (let put_options :=
             filter_options
               (contracts_with_snapshot from_contract_snapshot
                  option_contracts snapshots) None in
           attempted
             `prefix_of` select_options put_options
                           (score_options put_options))
       /\ affordable buying_power attempted
       /\ sold_symbols (calls w')
          = sold_symbols (calls w) ++ map Contract.symbol attempted.
Proof.
  cbv zeta. unfold sell_puts.
  destruct (match allowed_symbols with [] => true | _ :: _ => false end)
    eqn:Hempty; simpl.
  { by left. }
  destruct (Qle_bool buying_power 0) eqn:Hbp.
  { by left. }
  apply Qle_bool_false in Hbp.
  unfold invoke_raising, invoke. run.
  destruct (filter_underlying allowed_symbols buying_power (broker w))
    as [b1 [e | fs]] eqn:Hf; simpl.
  { left. by rewrite sold_symbols_cons, !app_nil_r. }
  destruct strat_logger as [sl |]; simpl.
  2: { left. by rewrite sold_symbols_cons, !app_nil_r. }
  destruct (length fs =? 0)%nat; simpl.
  { left. by rewrite sold_symbols_cons, !app_nil_r. }
  destruct (get_options_contracts client fs "put" b1)
    as [b2 [e | ocs]] eqn:Hoc; simpl.
  { left. by rewrite !sold_symbols_cons, !app_nil_r. }
  destruct (get_option_snapshot client (map OptionContract.symbol ocs) b2)
    as [b3 [e | snaps]] eqn:Hsnap; simpl.
  { left. by rewrite !sold_symbols_cons, !app_nil_r. }
  destruct (filter_options _ None) as [| p0 ps] eqn:Hpo; simpl.
  { left. by rewrite !sold_symbols_cons, !app_nil_r. }
  right. exists b1, fs, b2, ocs, b3, snaps.
  match goal with
  | |- context [sell_selected client ?sl0 ?sel buying_power ?w0] =>
      destruct (sell_selected_attempts client sl0 sel buying_power w0)
        as (attempted & rest & Hsel & Hsold & Hafford & _)
  end.
  exists attempted. split; [exact Hbp |]. split; [reflexivity |].
  split; [exact Hoc |]. split; [exact Hsnap |].
  split; [rewrite Hpo, Hsel; by apply prefix_app_r |].
  split; [exact Hafford |].
  rewrite Hsold. simpl. by rewrite !sold_symbols_cons, !app_nil_r.
Qed.

(** ** sell_calls: one sale at most *)

Lemma sell_top_call_at_most_one (client : BrokerClient) symbol strat_logger
    call_options (w : World) :
  exists l,
    sold_symbols
      (calls (fst (sell_top_call score_options client symbol strat_logger
                     call_options w)))
    = sold_symbols (calls w) ++ l
    /\ (length l <= 1)%nat.
Proof.
  unfold sell_top_call.
  destruct call_options as [| c0 cs].
  { exists []. split; [by rewrite app_nil_r | simpl; lia]. }
  cbv zeta. destruct (argmax _) as [i |].
  2: { exists []. split; [by rewrite app_nil_r | simpl; lia]. }
  destruct (_ !! i) as [contract |].
  2: { exists []. split; [by rewrite app_nil_r | simpl; lia]. }
  unfold invoke_raising, invoke. run.
  exists [Contract.symbol contract]. split; [| simpl; lia].
  destruct (market_sell client (Contract.symbol contract) (broker w))
    as [b' [e | []]]; simpl.
  - by rewrite sold_symbols_cons.
  - destruct strat_logger; simpl; by rewrite sold_symbols_cons.
Qed.

(** X6. Whatever the client, the pipeline and the share count, sell_calls
    makes at most one [market_sell] call. *)
Theorem sell_calls_at_most_one_sale (client : BrokerClient) symbol
    purchase_price stock_qty strat_logger (w : World) :
  exists l,
    sold_symbols
      (calls (fst (sell_calls' client symbol purchase_price stock_qty
                     strat_logger w)))
    = sold_symbols (calls w) ++ l
    /\ (length l <= 1)%nat.
Proof.
  unfold sell_calls.
  destruct (stock_qty <? 100)%Z.
  { exists []. split; [by rewrite app_nil_r | simpl; lia]. }
  unfold sell_best_call, invoke_raising, invoke. run.
  destruct (get_options_contracts client [symbol] "call" (broker w))
    as [b1 [e | ocs]]; simpl.
  { exists []. split; [by rewrite sold_symbols_cons, !app_nil_r |].
    simpl; lia. }
  unfold from_contracts.
  match goal with
  | |- context [for_each ocs ?body ?acc ?w1] =>
      pose proof (from_contracts_sold_symbols ocs acc w1) as Hbuilt;
      destruct (for_each ocs body acc w1) as [w2 [x | contracts]]
  end; simpl in *.
  { exists []. rewrite Hbuilt. simpl.
    split; [by rewrite sold_symbols_cons, !app_nil_r | simpl; lia]. }
  assert (Hw2 : sold_symbols (calls w2) = sold_symbols (calls w)).
  { rewrite Hbuilt. by rewrite sold_symbols_cons, app_nil_r. }
  assert (Htop : forall w3 : World,
            calls w3 = calls w2 ->
            exists l,
              sold_symbols
                (calls (fst (sell_top_call score_options client symbol
                               strat_logger
                               (filter_options contracts
                                  (Some purchase_price)) w3)))
              = sold_symbols (calls w) ++ l
              /\ (length l <= 1)%nat).
  { intros w3 Hcalls.
    destruct (sell_top_call_at_most_one client symbol strat_logger
                (filter_options contracts (Some purchase_price)) w3)
      as (l & Hl & Hlen).
    exists l. split; [| exact Hlen]. by rewrite Hl, Hcalls, Hw2. }
  destruct strat_logger; simpl; apply Htop; reflexivity.
Qed.

(** X7. When the round-lot check passes and the contracts are built but no
    call qualifies, sell_calls returns without selling: the trace gains no
    [market_sell] and the newest log record says that no viable call was
    found. *)
Theorem sell_calls_no_viable_call (client : BrokerClient) symbol
    purchase_price (stock_qty : Z) strat_logger (w : World)
    b1 option_contracts w2 contracts :
  (100 <= stock_qty)%Z ->
  get_options_contracts client [symbol] "call" (broker w)
  = (b1, inr option_contracts) ->
  from_contracts from_contract option_contracts
    (mkWorld b1 (call_get_options_contracts [symbol] "call" :: calls w)
       ((INFO, SearchingCalls symbol) :: log w) (strat w))
  = (w2, inr contracts) ->
  filter_options contracts (Some purchase_price) = [] ->
  exists w',
    sell_calls' client symbol purchase_price stock_qty strat_logger w
    = (w', inr tt)
    /\ sold_symbols (calls w') = sold_symbols (calls w)
    /\ broker w' = broker w2
    /\ log w' = (INFO, NoViableCalls symbol) :: log w2.
Proof.
  intros Hqty Hoc Hfc Hnone.
  assert (Hw2 : sold_symbols (calls w2) = sold_symbols (calls w)).
  { pose proof (from_contracts_sold_symbols option_contracts []
                  (mkWorld b1
                     (call_get_options_contracts [symbol] "call" :: calls w)
                     ((INFO, SearchingCalls symbol) :: log w) (strat w)))
      as H.
    unfold from_contracts in Hfc. rewrite Hfc in H. simpl in H.
    by rewrite H, sold_symbols_cons, app_nil_r. }
  unfold sell_calls. apply Z.ltb_ge in Hqty. rewrite Hqty.
  unfold sell_best_call, invoke_raising, invoke. run.
  rewrite Hoc. simpl. rewrite Hfc. simpl. rewrite Hnone.
  unfold sell_top_call.
  destruct strat_logger; simpl; eexists; (split; [reflexivity |]);
    simpl; done.
Qed.

Lemma from_contracts_strat options : forall acc (w : World),
  strat (fst (for_each options (from_contract_step from_contract) acc w))
  = strat w.
Proof.
  induction options as [| o options IH]; intros acc w; simpl;
    [reflexivity |].
  unfold from_contract_step, invoke_raising, invoke. run.
  destruct (from_contract o (broker w)) as [b' [e | c]]; simpl;
    [reflexivity |].
  by rewrite IH.
Qed.

Lemma from_contracts_raises options : forall acc (w w2 : World) x,
  for_each options (from_contract_step from_contract) acc w = (w2, inl x) ->
  exists e, x = Raised e.
Proof.
  induction options as [| o options IH]; intros acc w w2 x; simpl.
  - discriminate.
  - unfold from_contract_step, invoke_raising, invoke. run.
    destruct (from_contract o (broker w)) as [b' [e | c]]; simpl.
    + intros [= _ <-]. by exists e.
    + apply IH.
Qed.

(** X8. When [Contract.from_contract] raises for one of the contracts, the
    exception leaves sell_calls as it is: nothing is filtered, scored or
    sold, and the strategy logger receives nothing. *)
Theorem sell_calls_contract_failure (client : BrokerClient) symbol
    purchase_price (stock_qty : Z) strat_logger (w : World)
    b1 option_contracts w2 x :
  (100 <= stock_qty)%Z ->
  get_options_contracts client [symbol] "call" (broker w)
  = (b1, inr option_contracts) ->
  from_contracts from_contract option_contracts
    (mkWorld b1 (call_get_options_contracts [symbol] "call" :: calls w)
       ((INFO, SearchingCalls symbol) :: log w) (strat w))
  = (w2, inl x) ->
  sell_calls' client symbol purchase_price stock_qty strat_logger w
  = (w2, inl x)
  /\ (exists e, x = Raised e)
  /\ sold_symbols (calls w2) = sold_symbols (calls w)
  /\ strat w2 = strat w.
Proof.
  intros Hqty Hoc Hfc.
  split; [| split; [| split]].
  - unfold sell_calls. apply Z.ltb_ge in Hqty. rewrite Hqty.
    unfold sell_best_call, invoke_raising, invoke. run.
    rewrite Hoc. simpl. by rewrite Hfc.
  - unfold from_contracts in Hfc. by eapply from_contracts_raises.
  - pose proof (from_contracts_sold_symbols option_contracts []
                  (mkWorld b1
                     (call_get_options_contracts [symbol] "call" :: calls w)
                     ((INFO, SearchingCalls symbol) :: log w) (strat w)))
      as H.
    unfold from_contracts in Hfc. rewrite Hfc in H. simpl in H.
    by rewrite H, sold_symbols_cons, app_nil_r.
  - pose proof (from_contracts_strat option_contracts []
                  (mkWorld b1
                     (call_get_options_contracts [symbol] "call" :: calls w)
                     ((INFO, SearchingCalls symbol) :: log w) (strat w)))
      as H.
    unfold from_contracts in Hfc. by rewrite Hfc in H.
Qed.

(** ** np.argmax *)

Lemma first_max_unique scores i j :
  first_max scores i -> first_max scores j -> i = j.
Proof.
  intros (s_i & Hi & Hmi) (s_j & Hj & Hmj).
  destruct (Hmi j s_j Hj) as [Hle1 Hlt1].
  destruct (Hmj i s_i Hi) as [Hle2 Hlt2].
  destruct (Nat.lt_trichotomy i j) as [H | [H | H]]; [| exact H |].
  - specialize (Hlt2 H). lra.
  - specialize (Hlt1 H). lra.
Qed.

(** X9. The index [np.argmax] returns is characterised by the scores: it is
    [i] exactly when [i] is the first index at which the scores are greatest,
    and there is none exactly when there are no scores. *)
Theorem argmax_iff_first_max scores :
  (forall i, argmax scores = Some i <-> first_max scores i)
  /\ (argmax scores = None <-> scores = []).
Proof.
  split.
  - intros i. split; [apply argmax_first_max |].
    intros Hi. destruct (argmax scores) as [j |] eqn:Hj.
    + f_equal. apply (first_max_unique scores); [| exact Hi].
      by apply argmax_first_max.
    + destruct scores; [| discriminate].
      destruct Hi as (s & Hs & _). discriminate.
  - destruct scores; simpl; split; congruence.
Qed.

(** ** The detail map of a monitoring cycle *)

Lemma dict_set_elem {V} (d : list (string * V)) k v x :
  x ∈ dict_set d k v -> x = (k, v) \/ x ∈ d.
Proof.
  induction d as [| [k' v'] d IH]; simpl.
  - intros H. apply list_elem_of_singleton in H. by left.
  - destruct (String.eqb k' k).
    + intros H. apply elem_of_cons in H as [-> | H]; [by left |].
      right. by right.
    + intros H. apply elem_of_cons in H as [-> | H]; [right; by left |].
      destruct (IH H) as [-> | H']; [by left |]. right. by right.
Qed.

Lemma dict_set_has {V} (d : list (string * V)) k v :
  (k, v) ∈ dict_set d k v.
Proof.
  induction d as [| [k' v'] d IH]; simpl; [by left |].
  destruct (String.eqb k' k); [by left | by right].
Qed.

Lemma dict_set_keeps {V} (d : list (string * V)) k v x :
  x ∈ d -> fst x <> k -> x ∈ dict_set d k v.
Proof.
  induction d as [| [k' v'] d IH]; simpl; intros Hx Hne.
  - inversion Hx.
  - apply elem_of_cons in Hx as [-> | Hx].
    + simpl in Hne. apply String.eqb_neq in Hne. rewrite Hne. by left.
    + destruct (String.eqb k' k) eqn:Hk.
      * right. exact Hx.
      * right. by apply IH.
Qed.

(** Setting a key never duplicates it. *)
Lemma dict_set_NoDup {V} (d : list (string * V)) k v :
  NoDup (map fst d) -> NoDup (map fst (dict_set d k v)).
Proof.
  induction d as [| [k' v'] d IH]; simpl; intros Hnd.
  - apply NoDup_singleton.
  - apply NoDup_cons in Hnd as [Hnotin Hnd].
    destruct (String.eqb k' k) eqn:Hk; simpl.
    + apply String.eqb_eq in Hk as ->. by apply NoDup_cons.
    + apply String.eqb_neq in Hk. apply NoDup_cons. split; [| by apply IH].
      intros Hin. apply (list_elem_of_fmap_1 _) in Hin as Hin'.
      apply list_elem_of_fmap in Hin as ([k1 v1] & Hk1 & Hin).
      simpl in Hk1. subst k1.
      apply dict_set_elem in Hin as [[= -> _] | Hin]; [done |].
      apply Hnotin. apply list_elem_of_fmap. by exists (k', v1).
Qed.

Lemma collected_entries positions ps :
  forall s,
    (forall p, p ∈ ps -> p ∈ positions /\ is_short_option p = true) ->
    Forall (entry_of parse_option_symbol positions) (snd s) ->
    NoDup (map fst (snd s)) ->
    Forall (entry_of parse_option_symbol positions)
      (snd (fold_left
              (fun s position =>
                 collect_put_state parse_option_symbol position s) ps s))
    /\ NoDup
         (map fst
            (snd (fold_left
                    (fun s position =>
                       collect_put_state parse_option_symbol position s)
                    ps s))).
Proof.
  induction ps as [| p ps IH]; intros s Hps Hall Hnd; simpl.
  - by split.
  - apply IH.
    + intros p' Hp'. apply Hps. by right.
    + unfold collect_put_state.
      destruct (parse_option_symbol (Position.symbol p))
        as [e | [[u ty] k]] eqn:Hparse; [exact Hall |].
      destruct (String.eqb ty "P") eqn:Hty; [| exact Hall]. simpl.
      apply String.eqb_eq in Hty as ->.
      apply Forall_forall. intros x Hx.
      apply dict_set_elem in Hx as [-> | Hx].
      2: { by eapply Forall_forall in Hall. }
      destruct (Hps p) as [Hin Hshort]; [by left |].
      unfold entry_of. simpl.
      split; [exact Hin |]. split; [exact Hshort |].
      split; [reflexivity |]. split; [exact Hparse |].
      split; [reflexivity |].
      split.
      { unfold is_short_option in Hshort.
        apply andb_true_iff in Hshort as [_ Hneg].
        apply Z.ltb_lt in Hneg. lia. }
      split; [reflexivity | apply Qabs_nonneg].
    + unfold collect_put_state.
      destruct (parse_option_symbol (Position.symbol p))
        as [e | [[u ty] k]]; [exact Hnd |].
      destruct (String.eqb ty "P"); [| exact Hnd]. simpl.
      by apply dict_set_NoDup.
Qed.

Lemma short_put_entries (positions : list Position.t) :
  Forall (entry_of parse_option_symbol positions)
    (snd (collected parse_option_symbol
            (List.filter is_short_option positions)))
  /\ NoDup
       (map fst
          (snd (collected parse_option_symbol
                  (List.filter is_short_option positions)))).
Proof.
  unfold collected. apply collected_entries.
  - intros p Hp. apply list_elem_of_In, filter_In in Hp as [Hin Hshort].
    split; [by apply list_elem_of_In | exact Hshort].
  - constructor.
  - constructor.
Qed.

(** X10. Every entry of [put_details] comes from one of the positions the
    broker reported: a short option position whose symbol is the key and
    parses as a put with the underlying and strike of the entry, the
    quantity being the positive absolute share count and the premium the
    non-negative absolute entry price. No symbol has two entries, even when
    the broker reports it twice. *)
Theorem put_details_invariant (positions : list Position.t) :
  let put_details :=
    snd (collected parse_option_symbol
           (List.filter is_short_option positions)) in
  Forall (entry_of parse_option_symbol positions) put_details
  /\ NoDup (map fst put_details).
Proof. apply short_put_entries. Qed.

Lemma collected_underlyings ps :
  forall s,
    (forall e, e ∈ snd s ->
       exists ty k,
         parse_option_symbol (fst e)
         = inr (PutDetail.underlying (snd e), ty, k)) ->
    (forall u, u ∈ fst s
               <-> exists e, e ∈ snd s /\ PutDetail.underlying (snd e) = u) ->
    let s' :=
      fold_left
        (fun s position => collect_put_state parse_option_symbol position s)
        ps s in
    forall u, u ∈ fst s'
              <-> exists e, e ∈ snd s' /\ PutDetail.underlying (snd e) = u.
Proof.
  induction ps as [| p ps IH]; intros s Hparse Hiff; simpl; [exact Hiff |].
  unfold collect_put_state at 2 4.
  destruct (parse_option_symbol (Position.symbol p))
    as [e | [[u0 ty] k]] eqn:Hp; [by apply IH |].
  destruct (String.eqb ty "P"); [| by apply IH].
  apply IH; simpl.
  - intros e He. apply dict_set_elem in He as [-> | He]; [| by apply Hparse].
    simpl. eauto.
  - intros u. rewrite elem_of_app, list_elem_of_singleton, Hiff. split.
    + intros [(e & He & Hu) | ->].
      * destruct (decide (fst e = Position.symbol p)) as [Heq | Hne].
        -- destruct (Hparse e He) as (ty' & k' & He').
           rewrite Heq, Hp in He'. injection He' as -> _ _.
           eexists. split; [apply dict_set_has |]. simpl. congruence.
        -- exists e. split; [by apply dict_set_keeps | exact Hu].
      * eexists. split; [apply dict_set_has | reflexivity].
    + intros (e & He & Hu).
      apply dict_set_elem in He as [-> | He]; [right; by rewrite <- Hu |].
      left. by exists e.
Qed.

(** X11. The set of symbols handed to the stock-price fetch is exactly the
    set of the underlyings of the entries of [put_details]: every put that
    is evaluated has its underlying requested, and nothing else is. *)
Theorem underlyings_cover_put_details (put_positions : list Position.t) :
  let underlyings := fst (collected parse_option_symbol put_positions) in
  let put_details := snd (collected parse_option_symbol put_positions) in
  (list_to_set underlyings : gset string)
  = list_to_set (map (fun e => PutDetail.underlying (snd e)) put_details).
Proof.
  intros underlyings put_details. apply set_eq. intros u.
  rewrite !elem_of_list_to_set.
  unfold underlyings, put_details, collected.
  rewrite (collected_underlyings put_positions ([], [])).
  - rewrite list_elem_of_fmap. split; intros (e & H1 & H2); exists e; done.
  - intros e He. inversion He.
  - intros u'. simpl. split.
    + intros H. inversion H.
    + intros (e & He & _). inversion He.
Qed.

(** ** The closing orders of a cycle *)

Lemma decision_entry stock_prices option_snapshots target_pct
    (put_details : list (string * PutDetail.t)) (d : Decision) :
  d ∈ omap (closure_decision stock_prices option_snapshots target_pct)
        put_details ->
  exists item, item ∈ put_details /\ fst (fst d) = snd item.
Proof.
  intros Hd. apply list_elem_of_omap in Hd as (item & Hin & Hitem).
  exists item. split; [exact Hin |].
  by eapply closure_decision_details.
Qed.

Lemma order_closes_short_put positions (item : string * PutDetail.t) :
  entry_of parse_option_symbol positions item ->
  closes_short_put parse_option_symbol positions (close_order (snd item)).
Proof.
  intros (Hin & Hshort & Hkey & Hparse & Hqty & Hpos & _).
  unfold closes_short_put, close_order. simpl.
  split; [reflexivity |]. split; [reflexivity |]. split; [reflexivity |].
  split; [exact Hpos |].
  exists (PutDetail.position (snd item)).
  split; [exact Hin |]. split; [exact Hshort |].
  split; [| split; [reflexivity | exact Hqty]].
  unfold is_put_position. by rewrite <- Hkey, Hparse.
Qed.

Lemma decisions_NoDup positions stock_prices option_snapshots target_pct
    (put_details : list (string * PutDetail.t)) :
  Forall (entry_of parse_option_symbol positions) put_details ->
  NoDup (map fst put_details) ->
  NoDup
    (map (fun d : Decision =>
            MarketOrderRequest.symbol (close_order (fst (fst d))))
       (omap (closure_decision stock_prices option_snapshots target_pct)
          put_details)).
Proof.
  induction put_details as [| item items IH]; intros Hall Hnd; simpl.
  - constructor.
  - apply Forall_cons in Hall as [Hitem Hall].
    apply NoDup_cons in Hnd as [Hnotin Hnd].
    destruct (closure_decision _ _ _ item) as [d |] eqn:Hd; [| by apply IH].
    simpl. apply NoDup_cons. split; [| by apply IH].
    intros Hin. apply list_elem_of_fmap in Hin as (d' & Hsym & Hd').
    apply decision_entry in Hd' as (item' & Hin' & Hdet').
    apply closure_decision_details in Hd.
    apply Hnotin. apply list_elem_of_fmap. exists item'.
    split; [| exact Hin'].
    eapply Forall_forall in Hall; [| exact Hin'].
    destruct Hitem as (_ & _ & Hk & _). destruct Hall as (_ & _ & Hk' & _).
    rewrite Hk, Hk'. rewrite Hd, Hdet' in Hsym. exact Hsym.
Qed.

(** X12. Once [get_positions] has answered, whatever else the client does,
    the closing orders a cycle submits are market buys for the day, each for
    the symbol and the positive absolute quantity of a short option position
    the broker reported that parses as a put, and no symbol is closed
    twice. *)
Theorem manage_open_puts_orders (client : BrokerClient) target_pct
    strat_logger (w : World) b1 positions :
  get_positions client (broker w) = (b1, inr positions) ->
  exists orders,
    submitted_orders
      (calls (fst (manage_open_puts parse_option_symbol client target_pct
                     strat_logger w)))
    = submitted_orders (calls w) ++ orders
    /\ Forall (closes_short_put parse_option_symbol positions) orders
    /\ NoDup (map MarketOrderRequest.symbol orders).
Proof.
  intros Hpos.
  set (put_positions := List.filter is_short_option positions).
  set (underlyings := fst (collected parse_option_symbol put_positions)).
  set (put_details := snd (collected parse_option_symbol put_positions)).
  assert (Hnone : forall w' : World,
            submitted_orders (calls w') = submitted_orders (calls w) ->
            exists orders,
              submitted_orders (calls w')
              = submitted_orders (calls w) ++ orders
              /\ Forall (closes_short_put parse_option_symbol positions)
                   orders
              /\ NoDup (map MarketOrderRequest.symbol orders)).
  { intros w' Hw'. exists []. rewrite app_nil_r.
    split; [exact Hw' |]. split; constructor. }
  destruct (decide (put_positions = [])) as [Hpp | Hpp].
  { rewrite (manage_open_puts_no_positions client target_pct strat_logger
               w b1 positions Hpos Hpp).
    apply Hnone. simpl. by rewrite submitted_orders_cons, app_nil_r. }
  destruct (decide (underlyings = [])) as [Hus | Hus].
  { destruct (manage_open_puts_no_valid_puts client target_pct strat_logger
                w b1 positions Hpos Hpp Hus) as [l ->].
    apply Hnone. simpl. by rewrite submitted_orders_cons, app_nil_r. }
  destruct (get_stock_latest_trade client (list_to_set underlyings) b1)
    as [b2 [e | stock_prices]] eqn:Hsp.
  { destruct (manage_open_puts_stock_fetch_fails client target_pct
                strat_logger w b1 positions b2 e Hpos Hus Hsp) as [l ->].
    apply Hnone. simpl. by rewrite !submitted_orders_cons, !app_nil_r. }
  destruct (get_option_snapshot client (map fst put_details) b2)
    as [b3 [e | option_snapshots]] eqn:Hsnap.
  { destruct (manage_open_puts_snapshot_fetch_fails client target_pct
                strat_logger w b1 positions b2 stock_prices b3 e
                Hpos Hus Hsp Hsnap) as [l ->].
    apply Hnone. simpl. by rewrite !submitted_orders_cons, !app_nil_r. }
  destruct (manage_open_puts_evaluated client target_pct strat_logger w b1
              positions b2 stock_prices b3 option_snapshots
              Hpos Hus Hsp Hsnap) as (l & s & -> & _).
  simpl. rewrite submitted_orders_cycle_calls.
  eexists. split; [reflexivity |].
  destruct (short_put_entries positions) as [Hall Hnd].
  fold put_positions in Hall, Hnd. fold put_details in Hall, Hnd.
  split.
  - apply Forall_forall. intros order Horder.
    apply list_elem_of_fmap in Horder as (d & -> & Hd).
    apply decision_entry in Hd as (item & Hin & ->).
    apply order_closes_short_put.
    by eapply Forall_forall in Hall.
  - rewrite <- list_fmap_compose.
    by apply (decisions_NoDup positions).
Qed.

(** ** What the records of a cycle say *)

(** A decision of the second loop, read against its entry: the price is the
    evaluated one, the premium is positive, and the reason is the side on
    which the P&L percentage reached the target. *)
Lemma decision_consistent stock_prices option_snapshots (target_pct : Q)
    item (d : Decision) :
  0 < target_pct ->
  closure_decision stock_prices option_snapshots target_pct item = Some d ->
  exists current,
    evaluated_price stock_prices option_snapshots item = Some current
    /\ fst (fst d) = snd item
    /\ 0 < PutDetail.avg_entry_price (snd item)
    /\ snd d = unrealized_pnl (PutDetail.avg_entry_price (snd item)) current
    /\ (snd (fst d) = profit_target
        <-> target_pct
            <= pnl_percentage (PutDetail.avg_entry_price (snd item)) current)
    /\ (snd (fst d) = loss_limit
        <-> pnl_percentage (PutDetail.avg_entry_price (snd item)) current
            <= - target_pct).
Proof.
  intros Ht. unfold closure_decision.
  destruct (evaluated_price stock_prices option_snapshots item)
    as [current |]; [| discriminate].
  cbv zeta.
  destruct (should_close _ target_pct) eqn:Hclose; [| discriminate].
  intros [= <-]. simpl. exists current.
  split; [reflexivity |]. split; [reflexivity |].
  assert (Hp : 0 < PutDetail.avg_entry_price (snd item)).
  { apply Qnot_le_lt. intros Hle.
    unfold pnl_percentage, Qlt_bool in Hclose.
    apply Qle_bool_iff in Hle. rewrite Hle in Hclose. simpl in Hclose.
    apply should_close_iff in Hclose.
    change (Qabs 0) with 0 in Hclose. lra. }
  split; [exact Hp |]. split; [reflexivity |].
  apply should_close_iff, Qabs_ge_iff in Hclose.
  destruct (Qle_bool target_pct _) eqn:Hprofit.
  - apply Qle_bool_iff in Hprofit. split; split; try done.
    intros Hloss. lra.
  - apply Qle_bool_false in Hprofit. split; split; try done.
    + intros Hge. lra.
    + intros _. destruct Hclose as [Hc | Hc]; [lra | exact Hc].
Qed.

(** X14. In a cycle that reaches the submissions, with a positive target,
    every record returned is the record of an entry of [put_details] that
    had a price: its symbol, underlying, strike and premium are those of the
    entry, the premium is positive, its P&L is the one line 164 computes
    from the premium and that price, and it is tagged [profit_target]
    exactly when the P&L percentage of line 168 is at the target or above
    and [loss_limit] exactly when it is at minus the target or below. The
    statement is about the quantities as the code computes them, whatever
    the float operations give. *)
Theorem closed_records_consistent (client : BrokerClient) (target_pct : Q)
    strat_logger (w : World) b1 positions b2 stock_prices b3
    option_snapshots :
  0 < target_pct ->
  get_positions client (broker w) = (b1, inr positions) ->
  let put_positions := List.filter is_short_option positions in
  let underlyings := fst (collected parse_option_symbol put_positions) in
  let put_details := snd (collected parse_option_symbol put_positions) in
  underlyings <> [] ->
  get_stock_latest_trade client (list_to_set underlyings) b1
  = (b2, inr stock_prices) ->
  get_option_snapshot client (map fst put_details) b2
  = (b3, inr option_snapshots) ->
  exists closed_positions,
    snd (manage_open_puts parse_option_symbol client target_pct
           strat_logger w)
    = inr (Some closed_positions)
    /\ forall c, c ∈ closed_positions ->
         exists option_symbol details current,
           (option_symbol, details) ∈ put_details
           /\ evaluated_price stock_prices option_snapshots
                (option_symbol, details) = Some current
           /\ ClosedPosition.symbol c = option_symbol
           /\ ClosedPosition.underlying c = PutDetail.underlying details
           /\ ClosedPosition.strike c = PutDetail.strike details
           /\ ClosedPosition.premium_collected c
              = PutDetail.avg_entry_price details
           /\ 0 < ClosedPosition.premium_collected c
           /\ ClosedPosition.pnl c
              = unrealized_pnl (ClosedPosition.premium_collected c) current
           /\ (ClosedPosition.reason c = profit_target
               <-> target_pct
                   <= pnl_percentage (ClosedPosition.premium_collected c)
                        current)
           /\ (ClosedPosition.reason c = loss_limit
               <-> pnl_percentage (ClosedPosition.premium_collected c)
                     current
                   <= - target_pct).
Proof.
  intros Ht Hpos put_positions underlyings put_details Hus Hsp Hsnap.
  destruct (manage_open_puts_evaluated client target_pct strat_logger w b1
              positions b2 stock_prices b3 option_snapshots
              Hpos Hus Hsp Hsnap) as (l & s & -> & _).
  eexists. split; [reflexivity |].
  intros c Hc.
  apply list_elem_of_omap in Hc as ([d r] & Hin & Hc).
  unfold closed_of in Hc. simpl in Hc.
  destruct r as [e | response]; [discriminate |]. injection Hc as <-.
  assert (Hd : d ∈ omap (closure_decision stock_prices option_snapshots
                           target_pct) put_details).
  { rewrite <- (submissions_decisions client _ b3).
    apply list_elem_of_fmap. by exists (d, inr response). }
  apply list_elem_of_omap in Hd as ([option_symbol details] & Hitem & Hdec).
  destruct (decision_consistent _ _ _ _ _ Ht Hdec)
    as (current & Hprice & Hdetails & Hp & Hpnl & Hprofit & Hloss).
  destruct (short_put_entries positions) as [Hall _].
  fold put_positions in Hall. fold put_details in Hall.
  eapply Forall_forall in Hall; [| exact Hitem].
  destruct Hall as (_ & _ & Hsym & _).
  destruct d as [[details' reason] pnl]. simpl in *. subst details'.
  exists option_symbol, details, current.
  split; [exact Hitem |]. split; [exact Hprice |].
  split; [by rewrite Hsym |]. split; [reflexivity |].
  split; [reflexivity |]. split; [reflexivity |]. split; [exact Hp |].
  split; [exact Hpnl |]. split; [exact Hprofit | exact Hloss].
Qed.

(** X15. In a cycle whose fetches succeed but in which no entry of
    [put_details] has both a stock price and an option price (an empty
    snapshot map, for one), nothing is submitted and the result is the empty
    list, not [None]. *)
Theorem no_price_data_closes_nothing (client : BrokerClient) target_pct
    strat_logger (w : World) b1 positions b2 stock_prices b3
    option_snapshots :
  get_positions client (broker w) = (b1, inr positions) ->
  let put_positions := List.filter is_short_option positions in
  let underlyings := fst (collected parse_option_symbol put_positions) in
  let put_details := snd (collected parse_option_symbol put_positions) in
  underlyings <> [] ->
  get_stock_latest_trade client (list_to_set underlyings) b1
  = (b2, inr stock_prices) ->
  get_option_snapshot client (map fst put_details) b2
  = (b3, inr option_snapshots) ->
  (forall item, item ∈ put_details ->
     evaluated_price stock_prices option_snapshots item = None) ->
  exists w',
    manage_open_puts parse_option_symbol client target_pct strat_logger w
    = (w', inr (Some []))
    /\ submitted_orders (calls w') = submitted_orders (calls w)
    /\ broker w' = b3.
Proof.
  intros Hpos put_positions underlyings put_details Hus Hsp Hsnap Hnone.
  destruct (manage_open_puts_evaluated client target_pct strat_logger w b1
              positions b2 stock_prices b3 option_snapshots
              Hpos Hus Hsp Hsnap) as (l & s & Hrun & _).
  assert (Hds : omap (closure_decision stock_prices option_snapshots
                        target_pct) put_details = []).
  { fold put_positions in Hrun. fold put_details in Hrun.
    clear Hrun Hsnap.
    induction put_details as [| item items IH]; [reflexivity |].
    simpl. unfold closure_decision at 1.
    rewrite (Hnone item) by (by left).
    apply IH. intros item' Hin. apply Hnone. by right. }
  unfold put_details, put_positions in Hds.
  rewrite Hds in Hrun. simpl in Hrun. rewrite Hrun.
  eexists. split; [reflexivity |]. simpl.
  split; [| reflexivity].
  unfold cycle_calls. simpl.
  by rewrite !submitted_orders_cons, !app_nil_r.
Qed.

(** ** Parsing failures *)

Lemma collect_put_exact position s (w : World) :
  collect_put parse_option_symbol position s w
  = (logged (parse_warnings parse_option_symbol [position]) w,
     inr (collect_put_state parse_option_symbol position s)).
Proof.
  destruct s as [underlyings put_details].
  unfold collect_put, collect_put_state, parse_warnings. simpl.
  destruct (parse_option_symbol (Position.symbol position))
    as [e | [[underlying option_type] strike_price]]; simpl.
  - reflexivity.
  - rewrite logged_nil. by destruct (String.eqb option_type "P").
Qed.

Lemma collect_loop_exact put_positions : forall s (w : World),
  for_each put_positions (collect_put parse_option_symbol) s w
  = (logged (rev (parse_warnings parse_option_symbol put_positions)) w,
     inr (fold_left
            (fun s position =>
               collect_put_state parse_option_symbol position s)
            put_positions s)).
Proof.
  induction put_positions as [| p ps IH]; intros s w.
  - simpl. by rewrite logged_nil.
  - change (for_each (p :: ps) (collect_put parse_option_symbol) s w)
      with (bind (collect_put parse_option_symbol p s)
              (fun s' => for_each ps (collect_put parse_option_symbol) s')
              w).
    unfold bind. rewrite collect_put_exact, IH, logged_logged.
    do 2 f_equal.
    unfold parse_warnings. simpl.
    destruct (parse_option_symbol (Position.symbol p)) as [e | ?]; simpl.
    + reflexivity.
    + by rewrite app_nil_r.
Qed.

Lemma fold_puts_only ps : forall s,
  fold_left
    (fun s position => collect_put_state parse_option_symbol position s)
    (List.filter (is_put_position parse_option_symbol) ps) s
  = fold_left
      (fun s position => collect_put_state parse_option_symbol position s)
      ps s.
Proof.
  induction ps as [| p ps IH]; intros s; [reflexivity |]. simpl.
  unfold is_put_position, collect_put_state at 3.
  destruct (parse_option_symbol (Position.symbol p))
    as [e | [[u ty] k]] eqn:Hp; [apply IH |].
  destruct (String.eqb ty "P") eqn:Hty; [| apply IH].
  simpl. unfold collect_put_state at 2. rewrite Hp, Hty. apply IH.
Qed.

Lemma parse_warnings_puts_only ps :
  parse_warnings (E:=E) parse_option_symbol
    (List.filter (is_put_position parse_option_symbol) ps) = [].
Proof.
  induction ps as [| p ps IH]; [reflexivity |]. simpl.
  unfold is_put_position at 1.
  destruct (parse_option_symbol (Position.symbol p))
    as [e | [[u ty] k]] eqn:Hp; [exact IH |].
  destruct (String.eqb ty "P"); [| exact IH].
  unfold parse_warnings. simpl. rewrite Hp. exact IH.
Qed.

(** X16. The first loop skips what does not parse as a put: its result is
    the one it computes on the positions that parse as puts alone, it logs
    one warning for each position whose symbol does not parse, in order, and
    nothing else; a position that parses as a call is dropped silently. *)
Theorem parse_failures_are_skipped (put_positions : list Position.t) s
    (w : World) :
  fst (for_each put_positions (collect_put parse_option_symbol) s w)
  = logged (rev (parse_warnings parse_option_symbol put_positions)) w
  /\ snd (for_each put_positions (collect_put parse_option_symbol) s w)
     = snd (for_each (List.filter (is_put_position parse_option_symbol)
                        put_positions)
              (collect_put parse_option_symbol) s w)
  /\ fst (for_each (List.filter (is_put_position parse_option_symbol)
                      put_positions)
            (collect_put parse_option_symbol) s w)
     = w.
Proof.
  rewrite !collect_loop_exact, fold_puts_only, parse_warnings_puts_only.
  simpl. by rewrite logged_nil.
Qed.

(** ** Reporting and early exits *)

(** X17. A cycle that reaches the submissions hands the strategy logger the
    returned records as one batch exactly when there is a logger and at
    least one record, and nothing otherwise; its newest log record counts
    the records returned out of the short option positions found. *)
Theorem cycle_report (client : BrokerClient) target_pct strat_logger
    (w : World) b1 positions b2 stock_prices b3 option_snapshots :
  get_positions client (broker w) = (b1, inr positions) ->
  let put_positions := List.filter is_short_option positions in
  let underlyings := fst (collected parse_option_symbol put_positions) in
  let put_details := snd (collected parse_option_symbol put_positions) in
  underlyings <> [] ->
  get_stock_latest_trade client (list_to_set underlyings) b1
  = (b2, inr stock_prices) ->
  get_option_snapshot client (map fst put_details) b2
  = (b3, inr option_snapshots) ->
  let ds :=
    omap (closure_decision stock_prices option_snapshots target_pct)
      put_details in
  let closed_positions := omap closed_of (submissions client ds b3) in
  exists w',
    manage_open_puts parse_option_symbol client target_pct strat_logger w
    = (w', inr (Some closed_positions))
    /\ strat w'
       = match closed_positions, strat_logger with
         | _ :: _, Some _ => log_closed_puts closed_positions :: strat w
         | _, _ => strat w
         end
    /\ hd_error (log w')
       = Some (INFO,
               ClosedCount (length closed_positions)
                 (length put_positions)).
Proof.
  intros Hpos put_positions underlyings put_details Hne Hsp Hsnap ds closed.
  assert (Hpp : put_positions <> []).
  { intros Hnil. apply Hne. subst underlyings. by rewrite Hnil. }
  unfold manage_open_puts, invoke_raising, invoke.
  unfold bind at 1 2. rewrite Hpos. simpl.
  fold put_positions. rewrite (match_nonempty put_positions) by exact Hpp.
  run.
  match goal with
  | |- context [for_each put_positions _ ?s ?w'] =>
      destruct (collect_loop_run put_positions s w') as [l1 Hl1]
  end.
  rewrite Hl1. fold (collected parse_option_symbol put_positions).
  fold underlyings put_details.
  rewrite (match_nonempty underlyings) by exact Hne.
  unfold logged; simpl.
  rewrite Hsp. simpl. rewrite Hsnap. simpl.
  unfold evaluate_and_close. run.
  match goal with
  | |- context [for_each put_details ?f ?s ?w'] =>
      destruct (evaluate_loop_run stock_prices option_snapshots target_pct
                  put_details s w') as [l2 Hl2]
  end.
  rewrite Hl2. simpl. fold ds.
  match goal with
  | |- context [for_each ds ?f ?s ?w'] =>
      destruct (close_loop_run client ds s w') as (l3 & Hl3 & _)
  end.
  rewrite Hl3. simpl. fold closed.
  destruct closed as [| c cs]; [| destruct strat_logger]; simpl;
    eexists; (split; [reflexivity |]); simpl; split; reflexivity.
Qed.

(** X18. When the broker reports no short option position, or none that
    parses as a put, the cycle stops after [get_positions]: no price is
    fetched, nothing is submitted, the strategy logger receives nothing, the
    result is [None] and the newest log record names which of the two it
    was. *)
Theorem no_puts_no_fetch (client : BrokerClient) target_pct strat_logger
    (w : World) b1 positions :
  get_positions client (broker w) = (b1, inr positions) ->
  let put_positions := List.filter is_short_option positions in
  fst (collected parse_option_symbol put_positions) = [] ->
  exists w',
    manage_open_puts parse_option_symbol client target_pct strat_logger w
    = (w', inr None)
    /\ calls w' = call_get_positions :: calls w
    /\ broker w' = b1
    /\ strat w' = strat w
    /\ hd_error (log w')
       = Some (INFO,
               match put_positions with
               | [] => NoOpenPutPositions
               | _ :: _ => NoValidPutPositions
               end).
Proof.
  intros Hpos put_positions Hus.
  destruct (decide (put_positions = [])) as [Hpp | Hpp].
  - rewrite (manage_open_puts_no_positions client target_pct strat_logger
               w b1 positions Hpos Hpp).
    eexists. split; [reflexivity |]. simpl. by rewrite Hpp.
  - destruct (manage_open_puts_no_valid_puts client target_pct strat_logger
                w b1 positions Hpos Hpp Hus) as [l ->].
    eexists. split; [reflexivity |]. simpl.
    by rewrite (match_nonempty put_positions) by exact Hpp.
Qed.

(** X19. [get_positions] is called outside any [try]: when it raises, the
    exception leaves manage_open_puts, which has then logged nothing and
    made no other call. *)
Theorem get_positions_failure_propagates (client : BrokerClient) target_pct
    strat_logger (w : World) b1 e :
  get_positions client (broker w) = (b1, inl e) ->
  manage_open_puts parse_option_symbol client target_pct strat_logger w
  = (mkWorld b1 (call_get_positions :: calls w) (log w) (strat w),
     inl (Raised e)).
Proof.
  intros Hpos. unfold manage_open_puts, invoke_raising, invoke.
  unfold bind at 1 2. by rewrite Hpos.
Qed.

Lemma length_dict_set {V} (d : list (string * V)) k v :
  (length (dict_set d k v) <= S (length d))%nat.
Proof.
  induction d as [| [k' v'] d IH]; simpl; [lia |].
  destruct (String.eqb k' k); simpl; lia.
Qed.

Lemma length_collected ps : forall s,
  (length (snd (fold_left
                  (fun s position =>
                     collect_put_state parse_option_symbol position s)
                  ps s))
   <= length (snd s) + length ps)%nat.
Proof.
  induction ps as [| p ps IH]; intros s; simpl; [lia |].
  etransitivity; [apply IH |].
  unfold collect_put_state.
  destruct (parse_option_symbol (Position.symbol p)) as [e | [[u ty] k]];
    [lia |].
  destruct (String.eqb ty "P"); [| lia]. simpl.
  pose proof (length_dict_set (snd s) (Position.symbol p)
                {| PutDetail.underlying := u;
                   PutDetail.strike := k;
                   PutDetail.qty := Z.abs (Position.qty p);
                   PutDetail.avg_entry_price :=
                     Qabs (Position.avg_entry_price p);
                   PutDetail.position := p |}).
  lia.
Qed.

Lemma length_omap_le {X Y} (f : X -> option Y) (l : list X) :
  (length (omap f l) <= length l)%nat.
Proof.
  induction l as [| x l IH]; [simpl; lia |].
  change (omap f (x :: l))
    with (match f x with Some y => y :: omap f l | None => omap f l end).
  destruct (f x); simpl; lia.
Qed.

(** X20. Once [get_positions] has answered, a cycle never returns more
    records than the broker reported short option positions: the two
    numbers of its closing log record are in order. *)
Theorem closed_count_bounded (client : BrokerClient) target_pct
    strat_logger (w : World) b1 positions closed_positions :
  get_positions client (broker w) = (b1, inr positions) ->
  snd (manage_open_puts parse_option_symbol client target_pct
         strat_logger w)
  = inr (Some closed_positions) ->
  (length closed_positions
   <= length (List.filter is_short_option positions)
   <= length positions)%nat.
Proof.
  intros Hpos Hrun. split; [| apply List.filter_length_le].
  set (put_positions := List.filter is_short_option positions) in *.
  set (underlyings := fst (collected parse_option_symbol put_positions)).
  set (put_details := snd (collected parse_option_symbol put_positions)).
  destruct (decide (put_positions = [])) as [Hpp | Hpp].
  { rewrite (manage_open_puts_no_positions client target_pct strat_logger
               w b1 positions Hpos Hpp) in Hrun. discriminate. }
  destruct (decide (underlyings = [])) as [Hus | Hus].
  { destruct (manage_open_puts_no_valid_puts client target_pct strat_logger
                w b1 positions Hpos Hpp Hus) as [l Hl].
    rewrite Hl in Hrun. discriminate. }
  destruct (get_stock_latest_trade client (list_to_set underlyings) b1)
    as [b2 [e | stock_prices]] eqn:Hsp.
  { destruct (manage_open_puts_stock_fetch_fails client target_pct
                strat_logger w b1 positions b2 e Hpos Hus Hsp) as [l Hl].
    rewrite Hl in Hrun. discriminate. }
  destruct (get_option_snapshot client (map fst put_details) b2)
    as [b3 [e | option_snapshots]] eqn:Hsnap.
  { destruct (manage_open_puts_snapshot_fetch_fails client target_pct
                strat_logger w b1 positions b2 stock_prices b3 e
                Hpos Hus Hsp Hsnap) as [l Hl].
    rewrite Hl in Hrun. discriminate. }
  destruct (manage_open_puts_evaluated client target_pct strat_logger w b1
              positions b2 stock_prices b3 option_snapshots
              Hpos Hus Hsp Hsnap) as (l & s & Hl & _).
  rewrite Hl in Hrun. simpl in Hrun. injection Hrun as <-.
  etransitivity; [apply length_omap_le |].
  rewrite <- (length_map fst), submissions_decisions.
  etransitivity; [apply length_omap_le |].
  pose proof (length_collected put_positions ([], [])) as Hlen.
  simpl in Hlen. exact Hlen.
Qed.

(** ** Quotes *)

(** X21. A two-sided quote with a positive bid not above the ask prices the
    option between the bid and the ask, whatever the latest trade. *)
Theorem mid_price_between_bid_and_ask (bid_price ask_price : Q)
    latest_trade :
  0 < bid_price -> bid_price <= ask_price ->
  exists current,
    current_option_price
      (Snapshot.mk (Some (Quote.mk (Some bid_price) (Some ask_price)))
         latest_trade)
    = Some current
    /\ bid_price <= current <= ask_price.
Proof.
  intros Hb Hba.
  assert (Htb : truthy (Some bid_price) = true).
  { simpl. apply negb_true_iff.
    destruct (Qeq_bool bid_price 0) eqn:Hz; [| reflexivity].
    apply Qeq_bool_iff in Hz. lra. }
  assert (Hta : truthy (Some ask_price) = true).
  { simpl. apply negb_true_iff.
    destruct (Qeq_bool ask_price 0) eqn:Hz; [| reflexivity].
    apply Qeq_bool_iff in Hz. lra. }
  eexists. split; [by apply current_option_price_mid |].
  split.
  - apply Qle_shift_div_l; lra.
  - apply Qle_shift_div_r; lra.
Qed.

(** ** sell_puts: what the strategy logger is told *)

Lemma recorded_sales_cons r rs :
  recorded_sales (r :: rs)
  = recorded_sales rs
    ++ match r with
       | log_sold_puts options => map Contract.symbol options
       | _ => []
       end.
Proof.
  unfold recorded_sales. simpl. rewrite flat_map_app. simpl.
  by rewrite app_nil_r.
Qed.

Ltac nothing_sold :=
  exists [], []; simpl;
  rewrite ?sold_symbols_cons, ?recorded_sales_cons, ?app_nil_r;
  split; [reflexivity |]; split; [reflexivity |];
  split; [first [reflexivity | by left] | by intros].

(** The loop of lines 34-41 with a strategy logger: a sale is recorded once
    [market_sell] has returned, and a [market_sell] that raises ends the
    loop with its exception, unrecorded. *)
Lemma sell_selected_records (client : BrokerClient) strat_logger selection :
  forall buying_power (w : World),
  let run :=
    sell_selected client (Some strat_logger) selection buying_power w in
  exists attempted recorded,
    sold_symbols (calls (fst run)) = sold_symbols (calls w) ++ attempted
    /\ recorded_sales (strat (fst run))
       = recorded_sales (strat w) ++ recorded
    /\ match snd run with
       | inr _ => recorded = attempted
       | inl x => exists s e, x = Raised e /\ attempted = recorded ++ [s]
       end
    /\ forall accepts : string -> bool,
         (forall symbol b,
            accepts symbol = true
            <-> snd (market_sell client symbol b) = inr tt) ->
         recorded = List.filter accepts attempted.
Proof.
  induction selection as [| p rest IH]; intros bp w; cbv zeta; simpl.
  - exists [], []. rewrite !app_nil_r. by repeat split.
  - destruct (Qlt_bool (fsub bp (fmul 100 (Contract.strike p))) 0).
    { exists [], []. rewrite !app_nil_r. by repeat split. }
    unfold invoke_raising, invoke. run.
    destruct (market_sell client (Contract.symbol p) (broker w))
      as [b' [e | []]] eqn:Hsell; simpl.
    + exists [Contract.symbol p], []. rewrite app_nil_r.
      split; [by rewrite sold_symbols_cons |]. split; [reflexivity |].
      split; [by exists (Contract.symbol p), e |].
      intros accepts Haccepts. simpl.
      destruct (accepts (Contract.symbol p)) eqn:Hp; [| reflexivity].
      apply (Haccepts _ (broker w)) in Hp. rewrite Hsell in Hp.
      discriminate.
    + match goal with
      | |- context [sell_selected client _ rest ?bp' ?w0] =>
          destruct (IH bp' w0) as (att & rec & Hcalls & Hstrat & Hres & Hacc)
      end.
      exists (Contract.symbol p :: att), (Contract.symbol p :: rec).
      split.
      { rewrite Hcalls. simpl.
        by rewrite sold_symbols_cons, <- app_assoc. }
      split.
      { rewrite Hstrat. simpl.
        by rewrite recorded_sales_cons, <- app_assoc. }
      split.
      { destruct (snd _) as [x | []].
        - destruct Hres as (s & e & -> & ->). by exists s, e.
        - by rewrite Hres. }
      intros accepts Haccepts. simpl.
      assert (Hp : accepts (Contract.symbol p) = true).
      { apply (Haccepts _ (broker w)). by rewrite Hsell. }
      rewrite Hp. f_equal. by apply Hacc.
Qed.

(** X23. With a strategy logger, the puts that sell_puts records as sold
    are, in order, the puts whose [market_sell] returned. When sell_puts
    returns, the record is the list of the sales attempted. When it raises,
    either nothing was attempted or recorded, or the exception is the one of
    the last sale attempted and the record is the sales attempted before
    it. For a client that accepts or rejects a sale by its symbol, the
    record is the list of the attempted sales it accepts. *)
Theorem sell_puts_records_accepted_sales (client : BrokerClient)
    allowed_symbols buying_power strat_logger (w : World) :
  let run :=
    sell_puts' client allowed_symbols buying_power (Some strat_logger) w in
  exists attempted recorded,
    sold_symbols (calls (fst run)) = sold_symbols (calls w) ++ attempted
    /\ recorded_sales (strat (fst run))
       = recorded_sales (strat w) ++ recorded
    /\ match snd run with
       | inr _ => recorded = attempted
       | inl x =>
           attempted = [] /\ recorded = []
           \/ exists s e, x = Raised e /\ attempted = recorded ++ [s]
       end
    /\ forall accepts : string -> bool,
         (forall symbol b,
            accepts symbol = true
            <-> snd (market_sell client symbol b) = inr tt) ->
         recorded = List.filter accepts attempted.
Proof.
  cbv zeta. unfold sell_puts.
  destruct (_ || _).
  { nothing_sold. }
  unfold invoke_raising, invoke. run.
  destruct (filter_underlying allowed_symbols buying_power (broker w))
    as [b1 [e | fs]]; simpl.
  { nothing_sold. }
  destruct (length fs =? 0)%nat; simpl.
  { nothing_sold. }
  destruct (get_options_contracts client fs "put" b1)
    as [b2 [e | ocs]]; simpl.
  { nothing_sold. }
  destruct (get_option_snapshot client (map OptionContract.symbol ocs) b2)
    as [b3 [e | snaps]]; simpl.
  { nothing_sold. }
  destruct (filter_options _ None) as [| p0 ps] eqn:Hpo; simpl.
  { nothing_sold. }
  match goal with
  | |- context [sell_selected client _ ?sel buying_power ?w0] =>
      destruct (sell_selected_records client strat_logger sel buying_power
                  w0) as (att & rec & Hcalls & Hstrat & Hres & Hacc)
  end.
  exists att, rec. split.
  { rewrite Hcalls. simpl. by rewrite !sold_symbols_cons, !app_nil_r. }
  split.
  { rewrite Hstrat. simpl. by rewrite !recorded_sales_cons, !app_nil_r. }
  split; [| exact Hacc].
  destruct (snd _) as [x | []]; [by right | exact Hres].
Qed.

End Properties.

(** * The properties at the fixtures *)

(** C1. The price precedence fails where a quote is present without a
    usable ask. At a quote with neither bid nor ask and a latest trade at
    1.50, the option is priced at 0, not at 1.50: a put sold for 2.00 shows
    a profit of 100% and is bought back as [profit_target], where the trade
    price gives 25% and no closure. At a quote with neither bid nor ask and
    no trade, none of the three sources gives a price, and the position is
    closed all the same instead of being skipped. *)
Theorem empty_quote_is_priced_at_zero :
  current_option_price empty_quote_with_trade = Some 0
  /\ current_option_price empty_quote_no_trade = Some 0
  /\ should_close (pnl_percentage 2 (3 # 2)) (9 # 10) = false
  /\ snd (cycle (mock_client [aapl_short_put] stocks
                   {[ aapl_put := empty_quote_with_trade ]}))
     = inr (Some [ClosedPosition.mk aapl_put "AAPL" 150 profit_target 2 2
                    "mock_order_id"])
  /\ snd (cycle (mock_client [aapl_short_put] stocks
                   {[ aapl_put := empty_quote_no_trade ]}))
     = inr (Some [ClosedPosition.mk aapl_put "AAPL" 150 profit_target 2 2
                    "mock_order_id"]).
Proof. repeat split; vm_compute; reflexivity. Qed.

(** The same under the IEEE binary64 operations. *)
Example empty_quote_is_priced_at_zero_in_doubles :
  should_close (@pnl_percentage double_arithmetic 2 (3 # 2))
    (double (9 # 10)) = false
  /\ snd (@manage_open_puts nat string double_arithmetic parse_fixture
            (mock_client [aapl_short_put] stocks
               {[ aapl_put := empty_quote_with_trade ]})
            (double (9 # 10)) None world0)
     = inr (Some [ClosedPosition.mk aapl_put "AAPL" 150 profit_target 2 2
                    "mock_order_id"])
  /\ snd (@manage_open_puts nat string double_arithmetic parse_fixture
            (mock_client [aapl_short_put] stocks
               {[ aapl_put := empty_quote_no_trade ]})
            (double (9 # 10)) None world0)
     = inr (Some [ClosedPosition.mk aapl_put "AAPL" 150 profit_target 2 2
                    "mock_order_id"]).
Proof. repeat split; vm_compute; reflexivity. Qed.

(** C3. The three outcomes are not exhaustive: a failure of the position
    fetch is a fourth. [get_positions] at line 79 is called outside every
    [try]. When it raises, manage_open_puts does not log the failure and
    return [None], as it does for the two other bulk fetches, whose
    exceptions lines 113-125 catch: it raises the exception to its caller,
    with nothing logged. The same client with a failing stock-price fetch
    instead returns [None] after an error record. *)
Theorem position_fetch_failure_is_not_caught :
  cycle no_positions_client
  = (mkWorld 0%nat [call_get_positions] [] [],
     inl (Raised "positions unavailable"))
  /\ snd (cycle (no_quotes_client [aapl_short_put])) = inr None
  /\ log (fst (cycle (no_quotes_client [aapl_short_put])))
     = [(ERROR, FailedStockPrices "quotes unavailable");
        (INFO, ManagingOpenPuts 1)].
Proof. repeat split; vm_compute; reflexivity. Qed.

(** C4. Without a strategy logger, sell_puts does not stop quietly when the
    affordability filter leaves nothing: the call of [set_filtered_symbols]
    on [None] raises before the emptiness test is reached. With a strategy
    logger the same input returns. *)
Theorem sell_puts_without_logger_raises :
  sell_puts_fixture nothing_affordable (mock_client [] ∅ ∅) ["AAPL"] 1000
    None world0
  = (mkWorld 0%nat [call_filter_underlying ["AAPL"] 1000]
       [(INFO, SearchingPuts)] [],
     inl (AttributeError "set_filtered_symbols"))
  /\ snd (sell_puts_fixture nothing_affordable (mock_client [] ∅ ∅) ["AAPL"]
            1000 (Some StratLogger) world0)
     = inr tt.
Proof. split; reflexivity. Qed.

(** C2 at the profit scenario: premium 2.00, option at 0.10, 95% of the
    premium earned. *)
Lemma closure_iff_target_reached_witness :
  exists added,
    snd (evaluate_position stocks cheap_options (9 # 10)
           (aapl_put, aapl_detail 2) [] world0)
    = inr ([] ++ added)
    /\ (added
        = [(aapl_detail 2, profit_target,
            unrealized_pnl 2 (2000 # 20000))]
        <-> 9 # 10 <= pnl_percentage 2 (2000 # 20000)).
Proof.
  destruct (closure_iff_target_reached stocks cheap_options (9 # 10)
              (aapl_put, aapl_detail 2) [] world0 (2000 # 20000))
    as (added & Hrun & _ & Hprofit & _).
  - reflexivity.
  - unfold Qle; simpl; lia.
  - vm_compute; reflexivity.
  - exists added. split; [exact Hrun | exact Hprofit].
Defined.

(** The outcomes at the profit scenario. *)
Lemma manage_open_puts_outcomes_witness :
  exists v,
    snd (cycle (mock_client [aapl_short_put] stocks cheap_options)) = inr v
    /\ (v = None
        <-> nothing_to_evaluate parse_fixture
              (mock_client [aapl_short_put] stocks cheap_options)
              [aapl_short_put] 0%nat).
Proof.
  destruct (manage_open_puts_outcomes parse_fixture
              (mock_client [aapl_short_put] stocks cheap_options) (9 # 10)
              None world0 0%nat [aapl_short_put])
    as (v & Hv & Hnone & _).
  - reflexivity.
  - exists v. split; [exact Hv | exact Hnone].
Defined.

(** C5, the counterexample. Two puts are selected, struck at 305.70 and
    79.04, with 38474 of buying power. Their cumulative cost, 100 times the
    strikes, is within the budget at every prefix, so that the maximal
    prefix within the budget is the whole selection. In double arithmetic
    100 times 305.70 is 30570, the running budget becomes 7904, and 100
    times 79.04 is just above 7904: the running budget goes below zero and
    the second put is not sold. With exact operations both are sold. *)
Lemma sell_puts_rounding_leaves_affordable_put :
  map Contract.symbol (selection_of tight_chain tight_chain_snapshots)
  = ["XYZ250920P00305700"; "XYZ250920P00079040"]
  /\ within_budget 38474 (selection_of tight_chain tight_chain_snapshots)
  /\ snd (tight_sale double_arithmetic) = inr tt
  /\ sold_symbols (calls (fst (tight_sale double_arithmetic)))
     = ["XYZ250920P00305700"]
  /\ sold_symbols (calls (fst (tight_sale exact_arithmetic)))
     = ["XYZ250920P00305700"; "XYZ250920P00079040"].
Proof.
  split; [vm_compute; reflexivity |].
  split; [apply within_budget_check; vm_compute; reflexivity |].
  repeat split; vm_compute; reflexivity.
Qed.

(** C5 with 20000 of buying power: the 150 put is sold, the 140 put takes
    the running budget below zero. *)
Lemma sell_puts_sells_affordable_prefix_witness :
  exists sold rest w',
    sell_puts_fixture all_affordable
      (chain_client put_chain put_chain_snapshots) ["AAPL"] 20000
      (Some StratLogger) world0
    = (w', inr tt)
    /\ selection_of put_chain put_chain_snapshots = sold ++ rest
    /\ sold_symbols (calls w')
       = sold_symbols (calls world0) ++ map Contract.symbol sold
    /\ affordable 20000 sold
    /\ match rest with
       | [] => True
       | p :: _ => running_budget 20000 (sold ++ [p]) < 0
       end
    /\ forall qs,
         qs `prefix_of` selection_of put_chain put_chain_snapshots ->
         affordable 20000 qs -> qs `prefix_of` sold.
Proof.
  apply (sell_puts_sells_affordable_prefix all_affordable keep_all
           score_by_bid keep_order contract_of_snapshot
           (chain_client put_chain put_chain_snapshots) ["AAPL"] 20000
           StratLogger world0 0%nat ["AAPL"] 0%nat put_chain 0%nat
           put_chain_snapshots).
  - discriminate.
  - reflexivity.
  - intros symbol b. reflexivity.
  - reflexivity.
  - discriminate.
  - reflexivity.
  - reflexivity.
  - vm_compute. discriminate.
Defined.

(** C6 at a put with no premium and an option at 0.10. *)
Lemma zero_premium_never_closed_witness :
  snd (evaluate_position stocks cheap_options (9 # 10)
         (aapl_put, aapl_detail 0) [] world0)
  = inr [].
Proof.
  destruct (zero_premium_never_closed stocks cheap_options (9 # 10)
              (aapl_put, aapl_detail 0) [] world0)
    as (_ & _ & Hrun).
  - reflexivity.
  - unfold Qle; simpl; lia.
  - reflexivity.
  - exact Hrun.
Defined.

(** C7 at a client whose stock-price fetch raises. *)
Lemma fetch_failure_aborts_cycle_witness :
  exists w',
    cycle (no_quotes_client [aapl_short_put]) = (w', inr None)
    /\ submitted_orders (calls w') = submitted_orders (calls world0).
Proof.
  destruct (fetch_failure_aborts_cycle parse_fixture
              (no_quotes_client [aapl_short_put]) (9 # 10) None world0
              0%nat [aapl_short_put] 0%nat (inl "quotes unavailable")
              0%nat (inr ∅))
    as (w' & Hrun & Hcalls & _).
  - reflexivity.
  - vm_compute. discriminate.
  - reflexivity.
  - reflexivity.
  - left. eexists. reflexivity.
  - exists w'. split; [exact Hrun | exact Hcalls].
Defined.

(** C8 at two puts that both reach the target, the first closing order
    being rejected. *)
Lemma submission_failures_are_isolated_witness :
  let client :=
    flaky_client [aapl_short_put; msft_short_put] stocks cheap_options in
  let ds :=
    omap (closure_decision stocks cheap_options (9 # 10))
      (snd (collected parse_fixture
              (List.filter is_short_option
                 [aapl_short_put; msft_short_put]))) in
  exists w',
    cycle client
    = (w', inr (Some (omap closed_of (submissions client ds 0%nat))))
    /\ submitted_orders (calls w')
       = submitted_orders (calls world0)
         ++ map (fun d => close_order (fst (fst d))) ds.
Proof.
  intros client ds.
  destruct (submission_failures_are_isolated parse_fixture client (9 # 10)
              None world0 0%nat [aapl_short_put; msft_short_put] 0%nat
              stocks 0%nat cheap_options)
    as (w' & Hrun & _ & Hcalls & _).
  - reflexivity.
  - vm_compute. discriminate.
  - reflexivity.
  - reflexivity.
  - exists w'. split; [exact Hrun | exact Hcalls].
Defined.

(** C9 at 50 shares and at 100 shares. *)
Lemma sell_calls_round_lot_check_witness :
  sell_calls_fixture (chain_client call_chain ∅) "AAPL" 150 50 None world0
  = (mkWorld 0%nat [] [(ERROR, NotEnoughShares "AAPL" 50)] [],
     inl (InsufficientShares "AAPL" 50))
  /\ forall symbol' stock_qty',
       snd (sell_calls_fixture (chain_client call_chain ∅) "AAPL" 150 100
              None world0)
       <> inl (InsufficientShares symbol' stock_qty').
Proof.
  split.
  - apply (proj1 (sell_calls_round_lot_check keep_all score_by_bid call_of
                    (chain_client call_chain ∅) "AAPL" 150 50 None world0)).
    lia.
  - apply (proj2 (sell_calls_round_lot_check keep_all score_by_bid call_of
                    (chain_client call_chain ∅) "AAPL" 150 100 None world0)).
    lia.
Defined.

(** C10 at three calls scored 1, 3 and 3: the second is sold. *)
Lemma sell_calls_sells_first_best_witness :
  exists i contract,
    first_max
      (score_by_bid
         (keep_all (map (fun o => contract_of
                                    (OptionContract.strike_price o - 150) o)
                      call_chain) (Some 150)))
      i
    /\ keep_all (map (fun o => contract_of
                                 (OptionContract.strike_price o - 150) o)
                   call_chain) (Some 150) !! i
       = Some contract
    /\ sold_symbols
         (calls (fst (sell_calls_fixture (chain_client call_chain ∅) "AAPL"
                        150 100 None world0)))
       = sold_symbols (calls world0) ++ [Contract.symbol contract].
Proof.
  eapply (sell_calls_sells_first_best keep_all score_by_bid call_of
            (chain_client call_chain ∅) "AAPL" 150 100 None world0
            0%nat call_chain).
  - lia.
  - reflexivity.
  - vm_compute. reflexivity.
  - vm_compute. discriminate.
  - reflexivity.
Defined.

(** * The further properties at the fixtures *)

(** Nothing affordable, with a strategy logger. *)
Lemma sell_puts_nothing_affordable_witness :
  sell_puts_fixture nothing_affordable (mock_client [] ∅ ∅) ["AAPL"] 1000
    (Some StratLogger) world0
  = (mkWorld 0%nat [call_filter_underlying ["AAPL"] 1000]
       [(INFO, NoSymbolsWithBuyingPower); (INFO, SearchingPuts)]
       [set_filtered_symbols []],
     inr tt).
Proof.
  apply (sell_puts_nothing_affordable nothing_affordable keep_all
           score_by_bid keep_order contract_of_snapshot
           (mock_client [] ∅ ∅) ["AAPL"] 1000 StratLogger world0 0%nat).
  - discriminate.
  - reflexivity.
  - reflexivity.
Defined.

(** A chain of calls none of which passes the filter. *)
Lemma sell_calls_no_viable_call_witness :
  exists w',
    sell_calls keep_none score_by_bid call_of (chain_client call_chain ∅)
      "AAPL" 150 100 None world0
    = (w', inr tt)
    /\ sold_symbols (calls w') = sold_symbols (calls world0).
Proof.
  edestruct (sell_calls_no_viable_call keep_none score_by_bid call_of
               (chain_client call_chain ∅) "AAPL" 150 100 None world0
               0%nat call_chain)
    as (w' & Hrun & Hsold & _).
  - lia.
  - reflexivity.
  - vm_compute. reflexivity.
  - reflexivity.
  - exists w'. split; [exact Hrun | exact Hsold].
Defined.

(** A chain of calls whose contracts cannot be built. *)
Lemma sell_calls_contract_failure_witness :
  exists w2 x,
    sell_calls keep_all score_by_bid no_call_of (chain_client call_chain ∅)
      "AAPL" 150 100 None world0
    = (w2, inl x)
    /\ sold_symbols (calls w2) = sold_symbols (calls world0).
Proof.
  edestruct (sell_calls_contract_failure keep_all score_by_bid no_call_of
               (chain_client call_chain ∅) "AAPL" 150 100 None world0
               0%nat call_chain)
    as (Hrun & _ & Hsold & _).
  - lia.
  - reflexivity.
  - vm_compute. reflexivity.
  - do 2 eexists. split; [exact Hrun | exact Hsold].
Defined.

(** The closing orders of the profit scenario. *)
Lemma manage_open_puts_orders_witness :
  exists orders,
    submitted_orders
      (calls (fst (cycle (mock_client [aapl_short_put; msft_short_put]
                            stocks cheap_options))))
    = submitted_orders (calls world0) ++ orders
    /\ Forall (closes_short_put parse_fixture
                 [aapl_short_put; msft_short_put]) orders
    /\ NoDup (map MarketOrderRequest.symbol orders).
Proof.
  apply (manage_open_puts_orders parse_fixture
           (mock_client [aapl_short_put; msft_short_put] stocks
              cheap_options) (9 # 10) None world0 0%nat
           [aapl_short_put; msft_short_put]).
  reflexivity.
Defined.

(** The records of the profit scenario. *)
Lemma closed_records_consistent_witness :
  exists closed_positions,
    snd (cycle (mock_client [aapl_short_put] stocks cheap_options))
    = inr (Some closed_positions)
    /\ forall c, c ∈ closed_positions ->
         exists option_symbol details current,
           (option_symbol, details)
           ∈ snd (collected parse_fixture
                    (List.filter is_short_option [aapl_short_put]))
           /\ evaluated_price stocks cheap_options (option_symbol, details)
              = Some current
           /\ ClosedPosition.symbol c = option_symbol
           /\ ClosedPosition.underlying c = PutDetail.underlying details
           /\ ClosedPosition.strike c = PutDetail.strike details
           /\ ClosedPosition.premium_collected c
              = PutDetail.avg_entry_price details
           /\ 0 < ClosedPosition.premium_collected c
           /\ ClosedPosition.pnl c
              = unrealized_pnl (ClosedPosition.premium_collected c) current
           /\ (ClosedPosition.reason c = profit_target
               <-> 9 # 10
                   <= pnl_percentage (ClosedPosition.premium_collected c)
                        current)
           /\ (ClosedPosition.reason c = loss_limit
               <-> pnl_percentage (ClosedPosition.premium_collected c)
                     current
                   <= - (9 # 10)).
Proof.
  apply (closed_records_consistent parse_fixture
           (mock_client [aapl_short_put] stocks cheap_options) (9 # 10)
           None world0 0%nat [aapl_short_put] 0%nat stocks 0%nat
           cheap_options).
  - reflexivity.
  - reflexivity.
  - vm_compute. discriminate.
  - reflexivity.
  - reflexivity.
Defined.

(** The snapshot map is empty. *)
Lemma no_price_data_closes_nothing_witness :
  exists w',
    cycle (mock_client [aapl_short_put] stocks ∅) = (w', inr (Some []))
    /\ submitted_orders (calls w') = submitted_orders (calls world0)
    /\ broker w' = 0%nat.
Proof.
  apply (no_price_data_closes_nothing parse_fixture
           (mock_client [aapl_short_put] stocks ∅) (9 # 10) None world0
           0%nat [aapl_short_put] 0%nat stocks 0%nat ∅).
  - reflexivity.
  - vm_compute. discriminate.
  - reflexivity.
  - reflexivity.
  - intros item _. unfold evaluated_price.
    destruct (stocks !! _); reflexivity.
Defined.

(** The report of the profit scenario, with a strategy logger. *)
Lemma cycle_report_witness :
  exists w' closed_positions,
    manage_open_puts parse_fixture
      (mock_client [aapl_short_put] stocks cheap_options) (9 # 10)
      (Some StratLogger) world0
    = (w', inr (Some closed_positions))
    /\ hd_error (log w')
       = Some (INFO,
               ClosedCount (length closed_positions)
                 (length (List.filter is_short_option [aapl_short_put]))).
Proof.
  destruct (cycle_report parse_fixture
              (mock_client [aapl_short_put] stocks cheap_options) (9 # 10)
              (Some StratLogger) world0 0%nat [aapl_short_put] 0%nat stocks
              0%nat cheap_options)
    as (w' & Hrun & _ & Hlog).
  - reflexivity.
  - vm_compute. discriminate.
  - reflexivity.
  - reflexivity.
  - eexists w', _. split; [exact Hrun | exact Hlog].
Defined.

(** The broker holds one short call. *)
Lemma no_puts_no_fetch_witness :
  exists w',
    cycle (mock_client [aapl_short_call] ∅ ∅) = (w', inr None)
    /\ calls w' = call_get_positions :: calls world0.
Proof.
  destruct (no_puts_no_fetch parse_fixture
              (mock_client [aapl_short_call] ∅ ∅) (9 # 10) None world0
              0%nat [aapl_short_call])
    as (w' & Hrun & Hcalls & _).
  - reflexivity.
  - reflexivity.
  - exists w'. split; [exact Hrun | exact Hcalls].
Defined.

(** The positions cannot be read. *)
Lemma get_positions_failure_propagates_witness :
  cycle no_positions_client
  = (mkWorld 0%nat [call_get_positions] [] [],
     inl (Raised "positions unavailable")).
Proof.
  apply (get_positions_failure_propagates parse_fixture no_positions_client
           (9 # 10) None world0 0%nat "positions unavailable").
  reflexivity.
Defined.

(** The counts of the profit scenario. *)
Lemma closed_count_bounded_witness :
  exists closed_positions,
    snd (cycle (mock_client [aapl_short_put] stocks cheap_options))
    = inr (Some closed_positions)
    /\ (length closed_positions
        <= length (List.filter is_short_option [aapl_short_put])
        <= length [aapl_short_put])%nat.
Proof.
  eexists. split; [vm_compute; reflexivity |].
  apply (closed_count_bounded parse_fixture
           (mock_client [aapl_short_put] stocks cheap_options) (9 # 10)
           None world0 0%nat [aapl_short_put]).
  - reflexivity.
  - vm_compute. reflexivity.
Defined.

(** Bid 9, ask 11. *)
Lemma mid_price_between_bid_and_ask_witness :
  exists current,
    current_option_price
      (Snapshot.mk (Some (Quote.mk (Some 9) (Some 11))) None)
    = Some current
    /\ 9 <= current <= 11.
Proof.
  apply (mid_price_between_bid_and_ask 9 11 None).
  - reflexivity.
  - unfold Qle; simpl; lia.
Defined.

(** The put chain with 40000 of buying power and a client that rejects the
    140 put: both sales are attempted, the first is recorded, and the
    exception of the second leaves sell_puts. *)
Example rejected_sale_is_not_recorded :
  let run :=
    sell_puts_fixture all_affordable
      (picky_client put_chain put_chain_snapshots "AAPL250920P00140000")
      ["AAPL"] 40000 (Some StratLogger) world0 in
  sold_symbols (calls (fst run))
  = ["AAPL250920P00150000"; "AAPL250920P00140000"]
  /\ recorded_sales (strat (fst run)) = ["AAPL250920P00150000"]
  /\ snd run = inl (Raised "sale rejected").
Proof. repeat split; vm_compute; reflexivity. Qed.

Lemma sell_puts_records_accepted_sales_witness :
  let run :=
    sell_puts_fixture all_affordable
      (picky_client put_chain put_chain_snapshots "AAPL250920P00140000")
      ["AAPL"] 40000 (Some StratLogger) world0 in
  exists attempted recorded,
    sold_symbols (calls (fst run)) = sold_symbols (calls world0) ++ attempted
    /\ recorded_sales (strat (fst run))
       = recorded_sales (strat world0) ++ recorded
    /\ match snd run with
       | inr _ => recorded = attempted
       | inl x =>
           attempted = [] /\ recorded = []
           \/ exists s e, x = Raised e /\ attempted = recorded ++ [s]
       end
    /\ forall accepts : string -> bool,
         (forall symbol b,
            accepts symbol = true
            <-> snd (market_sell
                       (picky_client put_chain put_chain_snapshots
                          "AAPL250920P00140000") symbol b) = inr tt) ->
         recorded = List.filter accepts attempted.
Proof.
  exact (sell_puts_records_accepted_sales all_affordable keep_all
           score_by_bid keep_order contract_of_snapshot
           (picky_client put_chain put_chain_snapshots
              "AAPL250920P00140000") ["AAPL"] 40000
           StratLogger world0).
Defined.
